(** * Crimson messenger, protocol v2: the connection protocol engine

    A shallow embedding of [src/crimson/net/ProtocolV2.h]: the state
    enumeration and its name table, the backoff timer, the members of the
    engine with their default initializers, [wait_exit_io] and the
    execution gate [gated_execute].  Routines that the header only
    declares are modelled from the specification and marked as such.

    The pubsub topics and bucket notifications of the RADOS gateway,
    [src/rgw/driver/rados/rgw_pubsub.h] and
    [src/rgw/driver/rados/rgw_rest_pubsub.cc], follow in [Module rgw]. *)

From Stdlib Require Import ZArith Lia Floats.PrimFloat.
From stdpp Require Import base gmap strings list.

Open Scope Z_scope.

(** ** Seastar futures and promises

    A [seastar::future<>] is either ready when it is made
    ([seastar::now()]) or the future of a promise.  The reactor knows which
    promises have been given their value and which continuations wait for
    which promise. *)
Module seastar.

Definition promise_id := nat.

Inductive future : Type :=
| now
| get_future (p : promise_id).

Record reactor : Type := Reactor {
  resolved : gset promise_id;
  continuations : list (promise_id * promise_id);
  next_promise : promise_id
}.

(** [future::available()]. *)
Definition available (r : reactor) (f : future) : bool :=
  match f with
  | now => true
  | get_future p => bool_decide (p ∈ resolved r)
  end.

(** [seastar::promise<> pr;] a promise nobody has set yet. *)
Definition new_promise (r : reactor) : promise_id * reactor :=
  (next_promise r,
   Reactor (resolved r) (continuations r) (S (next_promise r))).

Definition mark (p : promise_id) (r : reactor) : reactor :=
  Reactor ({[p]} ∪ resolved r) (continuations r) (next_promise r).

(** The promises whose [set_value] is chained behind the future of [p]. *)
Definition waiters (p : promise_id) (r : reactor) : list promise_id :=
  snd <$> filter (λ c, c.1 = p) (continuations r).

(** [pr.set_value()]: the promise is resolved and the continuations that
    wait for it run, which may resolve further promises.  A chain of
    continuations is no longer than the list of them. *)
Fixpoint set_value_upto (fuel : nat) (p : promise_id) (r : reactor) : reactor :=
  match fuel with
  | O => mark p r
  | S n => foldr (set_value_upto n) (mark p r) (waiters p r)
  end.

Definition set_value (p : promise_id) (r : reactor) : reactor :=
  set_value_upto (length (continuations r)) p r.

(** [fut.finally([pr] { pr.set_value(); })].  On a future that is available
    the continuation runs at once and the result is ready.  Otherwise the
    continuation is queued behind [fut]; the future that [finally] returns
    becomes ready in the step that runs the continuation, that is, together
    with [pr], and is represented by the future of [pr]. *)
Definition finally_set_value (fut : future) (pr : promise_id) (r : reactor)
  : future * reactor :=
  match fut with
  | now => (now, set_value pr r)
  | get_future q =>
      if available r fut then (now, set_value pr r)
      else (get_future pr,
            Reactor (resolved r) ((q, pr) :: continuations r) (next_promise r))
  end.

End seastar.

(** ** The backoff timer, [ProtocolV2::Timer] *)
Module Timer.

(** [seastar::abort_source]: named by the delay that subscribed to it.  The
    connection the timer refers to is named by a handle. *)
Definition abort_source := nat.

Record t : Type := Build {
  last_dur_ : float;
  conn : nat;
  as_ : option abort_source
}.

(** [Timer(SocketConnection& conn) : conn(conn) {}] with the default member
    initializers: [last_dur_ = 0.0] and an empty [as]. *)
Definition create (conn : nat) : t := Build 0%float conn None.

(** [last_dur()]. *)
Definition last_dur (tm : t) : float := last_dur_ tm.

(** [cancel()].  The second component is the abort source on which
    [request_abort()] was called, if there was one. *)
Definition cancel (tm : t) : t * option abort_source :=
  let tm1 := Build 0%float (conn tm) (as_ tm) in
  match as_ tm1 with
  | Some a => (Build (last_dur_ tm1) (conn tm1) None, Some a)
  | None => (tm1, None)
  end.

End Timer.

(** ** The engine, [class ProtocolV2] *)
Module ProtocolV2.

(** References to the collaborators ([SocketConnection &], [IOHandler &],
    ...) and the objects behind the owning pointers are named by handles. *)
Definition handle := nat.
Definition FrameAssemblerV2 := handle.
Definition AuthConnectionMeta := handle.

Inductive state_t : Type :=
| NONE
| ACCEPTING
| SERVER_WAIT
| ESTABLISHING
| CONNECTING
| READY
| STANDBY
| WAIT
| REPLACING
| CLOSING.

#[export] Instance state_t_eq_dec : EqDecision state_t.
Proof. solve_decision. Defined.

(** [static_cast<int>(state)]: [NONE = 0] and every later enumerator is one
    more than the one before it. *)
Definition static_cast_int (s : state_t) : Z :=
  match s with
  | NONE => 0
  | ACCEPTING => 1
  | SERVER_WAIT => 2
  | ESTABLISHING => 3
  | CONNECTING => 4
  | READY => 5
  | STANDBY => 6
  | WAIT => 7
  | REPLACING => 8
  | CLOSING => 9
  end.

Definition statenames : list string :=
  ["NONE"; "ACCEPTING"; "SERVER_WAIT"; "ESTABLISHING"; "CONNECTING";
   "READY"; "STANDBY"; "WAIT"; "REPLACING"; "CLOSING"]%string.

(** [get_state_name]: [statenames[static_cast<int>(state)]].  An index
    outside the array has no defined value in C++; here it is [None]. *)
Definition get_state_name (s : state_t) : option string :=
  let i := static_cast_int s in
  if i <? 0 then None else statenames !! Z.to_nat i.

(** Modelled from the spec: [crimson::common::Gated], the execution gate's
    tracker of background work, is not part of the sources.  The spec says
    that it "tracks outstanding background work for orderly shutdown": it
    is the list of what was dispatched and the future of each piece of
    work; a piece is outstanding until its future is available.  Nothing in
    the header closes the gate, and this model has no closed gate. *)
Record Gated : Type := BuildGated {
  pending_dispatch : list (string * seastar.future)
}.

Record t : Type := Build {
  conn : handle;
  messenger : handle;
  io_handler : handle;
  has_socket : bool;
  is_socket_valid : bool;
  frame_assembler : option FrameAssemblerV2;
  exit_io : option seastar.promise_id;
  auth_meta : option AuthConnectionMeta;
  gate : Gated;
  closed : bool;
  closed_clean_fut : option seastar.future;
  state : state_t;
  peer_supported_features : Z;
  client_cookie : Z;
  server_cookie : Z;
  global_seq : Z;
  peer_global_seq : Z;
  connect_seq : Z;
  execution_done : seastar.future;
  protocol_timer : Timer.t
}.

Definition set_frame_assembler (v : option FrameAssemblerV2) (e : t) : t :=
  Build (conn e) (messenger e) (io_handler e) (has_socket e)
    (is_socket_valid e) v (exit_io e) (auth_meta e) (gate e) (closed e)
    (closed_clean_fut e) (state e) (peer_supported_features e)
    (client_cookie e) (server_cookie e) (global_seq e) (peer_global_seq e)
    (connect_seq e) (execution_done e) (protocol_timer e).

Definition set_auth_meta (v : option AuthConnectionMeta) (e : t) : t :=
  Build (conn e) (messenger e) (io_handler e) (has_socket e)
    (is_socket_valid e) (frame_assembler e) (exit_io e) v (gate e)
    (closed e) (closed_clean_fut e) (state e) (peer_supported_features e)
    (client_cookie e) (server_cookie e) (global_seq e) (peer_global_seq e)
    (connect_seq e) (execution_done e) (protocol_timer e).

Definition set_gate (v : Gated) (e : t) : t :=
  Build (conn e) (messenger e) (io_handler e) (has_socket e)
    (is_socket_valid e) (frame_assembler e) (exit_io e) (auth_meta e) v
    (closed e) (closed_clean_fut e) (state e) (peer_supported_features e)
    (client_cookie e) (server_cookie e) (global_seq e) (peer_global_seq e)
    (connect_seq e) (execution_done e) (protocol_timer e).

Definition set_closed (v : bool) (e : t) : t :=
  Build (conn e) (messenger e) (io_handler e) (has_socket e)
    (is_socket_valid e) (frame_assembler e) (exit_io e) (auth_meta e)
    (gate e) v (closed_clean_fut e) (state e) (peer_supported_features e)
    (client_cookie e) (server_cookie e) (global_seq e) (peer_global_seq e)
    (connect_seq e) (execution_done e) (protocol_timer e).

Definition set_state (v : state_t) (e : t) : t :=
  Build (conn e) (messenger e) (io_handler e) (has_socket e)
    (is_socket_valid e) (frame_assembler e) (exit_io e) (auth_meta e)
    (gate e) (closed e) (closed_clean_fut e) v (peer_supported_features e)
    (client_cookie e) (server_cookie e) (global_seq e) (peer_global_seq e)
    (connect_seq e) (execution_done e) (protocol_timer e).

Definition set_client_cookie (v : Z) (e : t) : t :=
  Build (conn e) (messenger e) (io_handler e) (has_socket e)
    (is_socket_valid e) (frame_assembler e) (exit_io e) (auth_meta e)
    (gate e) (closed e) (closed_clean_fut e) (state e)
    (peer_supported_features e) v (server_cookie e) (global_seq e)
    (peer_global_seq e) (connect_seq e) (execution_done e)
    (protocol_timer e).

Definition set_server_cookie (v : Z) (e : t) : t :=
  Build (conn e) (messenger e) (io_handler e) (has_socket e)
    (is_socket_valid e) (frame_assembler e) (exit_io e) (auth_meta e)
    (gate e) (closed e) (closed_clean_fut e) (state e)
    (peer_supported_features e) (client_cookie e) v (global_seq e)
    (peer_global_seq e) (connect_seq e) (execution_done e)
    (protocol_timer e).

Definition set_peer_global_seq (v : Z) (e : t) : t :=
  Build (conn e) (messenger e) (io_handler e) (has_socket e)
    (is_socket_valid e) (frame_assembler e) (exit_io e) (auth_meta e)
    (gate e) (closed e) (closed_clean_fut e) (state e)
    (peer_supported_features e) (client_cookie e) (server_cookie e)
    (global_seq e) v (connect_seq e) (execution_done e) (protocol_timer e).

Definition set_connect_seq (v : Z) (e : t) : t :=
  Build (conn e) (messenger e) (io_handler e) (has_socket e)
    (is_socket_valid e) (frame_assembler e) (exit_io e) (auth_meta e)
    (gate e) (closed e) (closed_clean_fut e) (state e)
    (peer_supported_features e) (client_cookie e) (server_cookie e)
    (global_seq e) (peer_global_seq e) v (execution_done e)
    (protocol_timer e).

Definition set_execution_done (v : seastar.future) (e : t) : t :=
  Build (conn e) (messenger e) (io_handler e) (has_socket e)
    (is_socket_valid e) (frame_assembler e) (exit_io e) (auth_meta e)
    (gate e) (closed e) (closed_clean_fut e) (state e)
    (peer_supported_features e) (client_cookie e) (server_cookie e)
    (global_seq e) (peer_global_seq e) (connect_seq e) v (protocol_timer e).

Definition set_protocol_timer (v : Timer.t) (e : t) : t :=
  Build (conn e) (messenger e) (io_handler e) (has_socket e)
    (is_socket_valid e) (frame_assembler e) (exit_io e) (auth_meta e)
    (gate e) (closed e) (closed_clean_fut e) (state e)
    (peer_supported_features e) (client_cookie e) (server_cookie e)
    (global_seq e) (peer_global_seq e) (connect_seq e) (execution_done e) v.

(** The constructor [ProtocolV2(SocketConnection &, IOHandler &)] is
    declared in the header and defined elsewhere.  Members with a default
    member initializer take it; [exit_io] (a [std::optional]), [gate] and
    [closed_clean_fut] are default-constructed; [protocol_timer] is built
    by [Timer(conn)].  What the constructor gives the references and the
    two owning pointers is an argument.  [closed_clean], a member of unit
    test builds only, is left out. *)
Definition construct (conn messenger io_handler : handle)
    (frame_assembler : option FrameAssemblerV2)
    (auth_meta : option AuthConnectionMeta) : t :=
  Build conn messenger io_handler
    false false frame_assembler None auth_meta (BuildGated []) false None
    NONE 0 0 0 0 0 0 seastar.now (Timer.create conn).

(** [wait_exit_io()]. *)
Definition wait_exit_io (e : t) : seastar.future :=
  match exit_io e with
  | Some p => seastar.get_future p
  | None => seastar.now
  end.

(** *** State passing

    The member functions run on the engine ([this]) and on the reactor. *)
Record world : Type := World {
  this : t;
  rx : seastar.reactor
}.

Definition M (A : Type) : Type := world -> A * world.

Definition ret {A : Type} (a : A) : M A := fun w => (a, w).

Definition bind {A B : Type} (m : M A) (k : A -> M B) : M B :=
  fun w => let (a, w1) := m w in k a w1.

Notation "x <~ m ;; k" := (bind m (fun x => k))
  (at level 100, m at next level, right associativity).
Notation "m ;;; k" := (bind m (fun _ => k))
  (at level 100, right associativity).

Definition execution_done_available : M bool :=
  fun w => (seastar.available (rx w) (execution_done (this w)), w).

(** [std::move(execution_done)]: the member is read here and assigned
    again before anything reads it. *)
Definition move_execution_done : M seastar.future :=
  fun w => (execution_done (this w), w).

Definition assign_execution_done (f : seastar.future) : M unit :=
  fun w => (tt, World (set_execution_done f (this w)) (rx w)).

Definition promise : M seastar.promise_id :=
  fun w => let (pr, r) := seastar.new_promise (rx w) in (pr, World (this w) r).

Definition finally_set_value (fut : seastar.future) (pr : seastar.promise_id)
  : M seastar.future :=
  fun w => let (f, r) := seastar.finally_set_value fut pr (rx w) in
           (f, World (this w) r).

(** [gate.dispatch_in_background(what, who, func)]: [func] runs now and the
    gate keeps the future it returns; the caller does not wait for it. *)
Definition dispatch_in_background (what : string) (func : M seastar.future)
  : M unit :=
  fut <~ func ;;
  fun w =>
    (tt, World (set_gate (BuildGated ((what, fut)
                                      :: pending_dispatch (gate (this w))))
                         (this w)) (rx w)).

(** The first half of the lambda of [gated_execute]: an unready
    [execution_done] goes to the gate, and a new promise takes its place. *)
Definition gated_execute_enter : M seastar.promise_id :=
  avail <~ execution_done_available ;;
  (if negb avail
   then dispatch_in_background "gated_execute_abandon" move_execution_done
   else ret tt) ;;;
  pr <~ promise ;;
  assign_execution_done (seastar.get_future pr) ;;;
  ret pr.

(** [gated_execute(what, who, func)].  [who] only names the connection in
    the gate's log and is left out. *)
Definition gated_execute (what : string) (func : M seastar.future) : M unit :=
  dispatch_in_background what
    (pr <~ gated_execute_enter ;;
     fut <~ func ;;
     finally_set_value fut pr).

(** What a state-driving function does to the gate: it returns without
    suspending, it starts an I/O and returns the future of it, or it drives
    another state through [gated_execute] and goes on. *)
Inductive Func : Type :=
| func_ready
| func_suspend
| func_drive (what : string) (inner : Func) (rest : Func).

Fixpoint invoke (f : Func) : M seastar.future :=
  match f with
  | func_ready => ret seastar.now
  | func_suspend => q <~ promise ;; ret (seastar.get_future q)
  | func_drive what inner rest => gated_execute what (invoke inner) ;;; invoke rest
  end.

(** *** Predicates on the reactor and the gate *)

(** Promises are named in the order they are made: a promise that is
    resolved, or that a continuation will set, has been made. *)
Definition reactor_wf (r : seastar.reactor) : Prop :=
  (forall p, p ∈ seastar.resolved r -> (p < seastar.next_promise r)%nat) /\
  (forall c, c ∈ seastar.continuations r -> (c.2 < seastar.next_promise r)%nat).

(** What giving a promise its value keeps and what it adds. *)
Definition resolves (p : seastar.promise_id) (r r' : seastar.reactor) : Prop :=
  reactor_wf r' /\
  seastar.next_promise r' = seastar.next_promise r /\
  seastar.continuations r' = seastar.continuations r /\
  (forall x, x ∈ seastar.resolved r -> x ∈ seastar.resolved r') /\
  p ∈ seastar.resolved r'.

Definition made (r : seastar.reactor) (f : seastar.future) : Prop :=
  match f with
  | seastar.now => True
  | seastar.get_future p => (p < seastar.next_promise r)%nat
  end.

Definition world_wf (w : world) : Prop :=
  reactor_wf (rx w) /\ made (rx w) (execution_done (this w)).

(** [w'] comes after [w]: promises were only added and only resolved, the
    gate lost nothing, and [execution_done] is what it was or the future of
    a promise made since. *)
Definition advances (w w' : world) : Prop :=
  (seastar.next_promise (rx w) <= seastar.next_promise (rx w'))%nat /\
  (forall x, x ∈ pending_dispatch (gate (this w)) ->
             x ∈ pending_dispatch (gate (this w'))) /\
  (forall p, p ∈ seastar.resolved (rx w) -> p ∈ seastar.resolved (rx w')) /\
  (execution_done (this w') = execution_done (this w) \/
   exists p, execution_done (this w') = seastar.get_future p /\
             (seastar.next_promise (rx w) <= p)%nat).

(** What became of the execution that [w] had in flight: in [w'] it still
    is the one [execution_done] names, or its future is in the gate as
    abandoned, or it has finished. *)
Definition superseded (w w' : world) : Prop :=
  execution_done (this w') = execution_done (this w) \/
  ("gated_execute_abandon"%string, execution_done (this w))
    ∈ pending_dispatch (gate (this w')) \/
  seastar.available (rx w') (execution_done (this w)) = true.

(** At most one execution is active: every piece of work in the gate that
    has not finished is the one execution [execution_done] names, or its
    future is in the gate as abandoned. *)
Definition one_active_driver (w : world) : Prop :=
  forall what p,
    (what, seastar.get_future p) ∈ pending_dispatch (gate (this w)) ->
    seastar.available (rx w) (seastar.get_future p) = false ->
    execution_done (this w) = seastar.get_future p \/
    ("gated_execute_abandon"%string, seastar.get_future p)
      ∈ pending_dispatch (gate (this w)).

(** What a function handed to [gated_execute] may be relied on for. *)
Definition well_behaved (func : M seastar.future) : Prop :=
  forall w, world_wf w ->
    world_wf (func w).2 /\ advances w (func w).2 /\
    superseded w (func w).2 /\
    (one_active_driver w -> one_active_driver (func w).2).

(** The events of an engine's life that concern the gate: a state is
    driven through [gated_execute], or the I/O behind a promise completes. *)
Inductive event : Type :=
| drive (what : string) (f : Func)
| complete (q : seastar.promise_id).

Definition step (ev : event) (w : world) : world :=
  match ev with
  | drive what f => (gated_execute what (invoke f) w).2
  | complete q =>
      if bool_decide (q < seastar.next_promise (rx w))%nat
      then World (this w) (seastar.set_value q (rx w))
      else w
  end.

Definition run (evs : list event) (w : world) : world :=
  foldl (fun w ev => step ev w) w evs.

(** *** Routines that the header declares and does not define

    Their bodies are not part of the sources: each is written from what
    the specification says of it.  What a routine asks of a collaborator is
    recorded as an effect. *)
Inductive effect : Type :=
| release_frame_assembler (fa : FrameAssemblerV2)
| request_abort (a : Timer.abort_source)
| wake_exit_io
| start_backoff (max_backoff : bool)
| io_reset_session (full : bool).

#[export] Instance effect_eq_dec : EqDecision effect.
Proof. solve_decision. Defined.

Definition release_of (fa : option FrameAssemblerV2) : list effect :=
  match fa with
  | Some a => [release_frame_assembler a]
  | None => []
  end.

Definition abort_of (a : option Timer.abort_source) : list effect :=
  match a with
  | Some s => [request_abort s]
  | None => []
  end.

Definition is_release (x : effect) : bool :=
  match x with
  | release_frame_assembler _ => true
  | _ => false
  end.

(** Modelled from the spec: [do_close] is declared in the header and
    defined elsewhere.  Section 4.1: "calling close on an already-CLOSING
    engine is a no-op"; section 4.6: it "must converge to a single CLOSING
    outcome, releasing the Frame Assembler, cancelling the timer, and
    waking any waiters on exit".  The header's member [closed] marks an
    engine that has been closed.  The spec does not say what
    [is_dispatch_reset] changes, and the callback [f_accept_new], of which
    it says nothing, is left out. *)
Definition do_close (is_dispatch_reset : bool) (e : t) : t * list effect :=
  if closed e then (e, [])
  else
    let (tm, aborted) := Timer.cancel (protocol_timer e) in
    (set_frame_assembler None
       (set_protocol_timer tm (set_state CLOSING (set_closed true e))),
     release_of (frame_assembler e) ++ abort_of aborted ++ [wake_exit_io]).

(** Calls of [do_close] one after the other, each with its own
    [is_dispatch_reset]; the effects add up. *)
Fixpoint do_close_all (calls : list bool) (e : t) : t * list effect :=
  match calls with
  | [] => (e, [])
  | c :: rest =>
      let (e1, eff1) := do_close c e in
      let (e2, eff2) := do_close_all rest e1 in
      (e2, eff1 ++ eff2)
  end.

(** The taxonomy of section 7, which [fault] reads off its [eptr]. *)
Inductive fault_kind : Type :=
| transport_fault
| protocol_format_fault
| authentication_fault.

(** The wire frame of a reconnection attempt (section 4.4): the session
    identity and the incremented [connect_seq]. *)
Record reconnect_frame : Type := BuildReconnect {
  rc_client_cookie : Z;
  rc_server_cookie : Z;
  rc_connect_seq : Z
}.

(** What the passive side answers. *)
Inductive reconnect_reply : Type :=
| reply_accept
| reply_retry (connect_seq : Z)
| reply_reset (full : bool)
| reply_wait.

(** What the client does next. *)
Inductive client_step : Type :=
| do_client_connect
| do_client_reconnect
| do_ready
| do_wait.

(** Modelled from the spec: [reset_session] is declared in the header and
    defined elsewhere.  Section 4.4: on RESET "the client must discard its
    session identity and auth context"; "a full reset clears all session
    state; the distinction between full and partial reset governs whether
    pending application messages are considered lost", which is the I/O
    handler's to act on. *)
Definition reset_session (is_full : bool) (e : t) : t * list effect :=
  let e1 := if is_full
            then set_connect_seq 0 (set_peer_global_seq 0 e)
            else e in
  (set_auth_meta None (set_server_cookie 0 (set_client_cookie 0 e1)),
   [io_reset_session is_full]).

(** Modelled from the spec: the client's handling of the answer to its
    reconnection attempt, part of [client_reconnect], which is declared in
    the header and defined elsewhere.  Section 4.4: after RESET the client
    must "fall back to a fresh full connection"; after RETRY "the client
    resynchronizes and retries with the corrected sequence"; section 4.3:
    an attempt answered with WAIT "must enter WAIT state with backoff". *)
Definition client_reconnect_reply (reply : reconnect_reply) (e : t)
  : t * list effect * client_step :=
  match reply with
  | reply_accept => (e, [], do_ready)
  | reply_retry cs => (set_connect_seq cs e, [], do_client_reconnect)
  | reply_reset full =>
      let (e1, eff) := reset_session full e in (e1, eff, do_client_connect)
  | reply_wait => (e, [], do_wait)
  end.

Section Unspecified.

(** Whether the caller's policy gives up a peer whose consecutive failures
    show it unreachable (section 4.6). *)
Variable abandon_unreachable : t -> bool.

(** What [fault] does with a fault that is not stale and for which section
    4.6 states no transition. *)
Variable fault_otherwise : fault_kind -> t -> t * list effect.

(** What the passive side answers to a [connect_seq] more than one ahead of
    the stored one, for which section 4.4 has no rule. *)
Variable reconnect_ahead :
  gmap (Z * Z) t -> reconnect_frame -> reconnect_reply * gmap (Z * Z) t.

(** Modelled from the spec: [fault] is declared in the header and defined
    elsewhere.  Section 4.6: it "is given the state the caller expected to
    still be in (to detect stale faults from superseded work) and a
    description of the failure"; section 8: a fault with a stale expected
    state "leaves the real state unchanged"; "transport-level faults while
    in CONNECTING/ACCEPTING/ESTABLISHING trigger a transition to WAIT
    (retry) unless the number of consecutive failures indicates the peer is
    unreachable, in which case the connection may be abandoned depending on
    caller policy"; section 4.5: WAIT uses the backoff timer. *)
Definition fault (expected_state : state_t) (where_ : string)
    (eptr : fault_kind) (e : t) : t * list effect :=
  if bool_decide (state e = expected_state) then
    match eptr, state e with
    | transport_fault, (CONNECTING | ACCEPTING | ESTABLISHING) =>
        if abandon_unreachable e then do_close false e
        else (set_state WAIT e, [start_backoff false])
    | _, _ => fault_otherwise eptr e
    end
  else (e, []).

(** Modelled from the spec: [server_reconnect] is declared in the header
    and defined elsewhere.  Section 4.4: the passive side knows its
    sessions by their identity [(client_cookie, server_cookie)]; "cookies
    unknown (server restarted or session evicted) -> reply RESET", and by
    section 6 a restart "always results in a full reset"; "incoming ==
    stored + 1 -> accept, bump stored connect_seq, proceed to
    REPLACING/READY"; "incoming <= stored -> reply RETRY with the stored
    connect_seq".  The comparisons are the spec's, on integers: an incoming
    64-bit value that equals [stored + 1] leaves no overflow to write
    out. *)
Definition server_reconnect (sessions : gmap (Z * Z) t) (rc : reconnect_frame)
  : reconnect_reply * gmap (Z * Z) t :=
  let key := (rc_client_cookie rc, rc_server_cookie rc) in
  match sessions !! key with
  | None => (reply_reset true, sessions)
  | Some existing =>
      let stored := connect_seq existing in
      if rc_connect_seq rc =? stored + 1 then
        (reply_accept,
         <[key := set_state REPLACING (set_connect_seq (stored + 1) existing)]>
           sessions)
      else if rc_connect_seq rc <=? stored then
        (reply_retry stored, sessions)
      else reconnect_ahead sessions rc
  end.

End Unspecified.

End ProtocolV2.

(** * RADOS gateway: pubsub topics and bucket notifications

    A shallow embedding of [src/rgw/driver/rados/rgw_pubsub.h] and
    [src/rgw/driver/rados/rgw_rest_pubsub.cc]: the topic records, the names
    of the metadata objects, the endpoint validation, and the REST
    operations on topics and notifications. *)
Module rgw.

(** ** [std::string]

    Strings are sequences of bytes.  [find] gives the first position at
    which the pattern occurs, [None] for [npos]; [substr] from a position
    past the end throws [std::out_of_range], which is [None]. *)
Definition empty (s : string) : bool :=
  match s with
  | EmptyString => true
  | String _ _ => false
  end.

Definition find (s pat : string) : option nat := String.index 0 pat s.

Definition substr (s : string) (pos : nat) : option string :=
  if (String.length s <? pos)%nat then None
  else Some (String.substring pos (String.length s - pos) s).

(** [pop_back()]: called on non-empty strings only. *)
Fixpoint pop_back (s : string) : string :=
  match s with
  | EmptyString => EmptyString
  | String c EmptyString => EmptyString
  | String c rest => String c (pop_back rest)
  end.

(** [compare]: negative, zero or positive; only the sign is fixed by the
    language, and bytes compare as unsigned. *)
Definition compare (s t : string) : Z :=
  match String.compare s t with
  | Eq => 0
  | Lt => -1
  | Gt => 1
  end.

(** An [int] used as a condition, or returned as [bool]. *)
Definition to_bool (i : Z) : bool := negb (i =? 0).

(** The error numbers of [errno.h] that the operations return negated. *)
Definition EPERM : Z := 1.
Definition ENOENT : Z := 2.
Definition EINVAL : Z := 22.

(** ** The records of [rgw_pubsub.h] *)

(** [rgw_user] is declared elsewhere; a topic reads its [tenant]. *)
Record rgw_user : Type := BuildUser {
  tenant : string;
  id : string
}.

Record rgw_pubsub_dest : Type := BuildDest {
  push_endpoint : string;
  push_endpoint_args : string;
  arn_topic : string;
  stored_secret : bool;
  persistent : bool
}.

(** A default-constructed [rgw_pubsub_dest]. *)
Definition rgw_pubsub_dest_default : rgw_pubsub_dest :=
  BuildDest "" "" "" false false.

Definition set_push_endpoint (v : string) (d : rgw_pubsub_dest) :=
  BuildDest v (push_endpoint_args d) (arn_topic d) (stored_secret d)
    (persistent d).

Definition set_push_endpoint_args (v : string) (d : rgw_pubsub_dest) :=
  BuildDest (push_endpoint d) v (arn_topic d) (stored_secret d)
    (persistent d).

Definition set_arn_topic (v : string) (d : rgw_pubsub_dest) :=
  BuildDest (push_endpoint d) (push_endpoint_args d) v (stored_secret d)
    (persistent d).

Definition set_stored_secret (v : bool) (d : rgw_pubsub_dest) :=
  BuildDest (push_endpoint d) (push_endpoint_args d) (arn_topic d) v
    (persistent d).

Definition set_persistent (v : bool) (d : rgw_pubsub_dest) :=
  BuildDest (push_endpoint d) (push_endpoint_args d) (arn_topic d)
    (stored_secret d) v.

Record rgw_pubsub_topic : Type := BuildTopic {
  user : rgw_user;
  name : string;
  dest : rgw_pubsub_dest;
  arn : string;
  opaque_data : string
}.

(** [rgw_pubsub_topic::to_str()]. *)
Definition to_str (t : rgw_pubsub_topic) : string :=
  (tenant (user t) +:+ "/") +:+ name t.

(** [rgw_pubsub_topic::operator<]: the [int] that [compare] returns is
    returned as [bool]. *)
Definition topic_lt (t1 t2 : rgw_pubsub_topic) : bool :=
  to_bool (compare (to_str t1) (to_str t2)).

Record rgw_s3_key_filter : Type := BuildKeyFilter {
  prefix_rule : string;
  suffix_rule : string;
  regex_rule : string
}.

(** [KeyValueMap], a flat map, in the order of its keys. *)
Record rgw_s3_key_value_filter : Type := BuildKeyValueFilter {
  kv : list (string * string)
}.

Record rgw_s3_filter : Type := BuildFilter {
  key_filter : rgw_s3_key_filter;
  metadata_filter : rgw_s3_key_value_filter;
  tag_filter : rgw_s3_key_value_filter
}.

(** [rgw::notify::EventType] is declared elsewhere; its values are named
    by numbers. *)
Definition EventType := nat.

Record rgw_pubsub_topic_filter : Type := BuildTopicFilter {
  topic : rgw_pubsub_topic;
  events : list EventType;
  s3_id : string;
  s3_filter : rgw_s3_filter
}.

(** [rgw_pubsub_bucket_topics::topics] and [rgw_pubsub_topics::topics] are
    [std::map]s: the entries are given in the order in which the map is
    iterated, the order of the keys. *)
Abbreviation rgw_pubsub_bucket_topics :=
  (list (string * rgw_pubsub_topic_filter)) (only parsing).
Abbreviation rgw_pubsub_topics :=
  (list (string * rgw_pubsub_topic)) (only parsing).

(** [rgw_bucket] is declared elsewhere; the object names read these two. *)
Record rgw_bucket : Type := BuildBucket {
  bucket_name : string;
  marker : string
}.

Definition pubsub_oid_prefix : string := "pubsub.".

(** [RGWPubSub::meta_oid()]. *)
Definition meta_oid (tenant : string) : string :=
  pubsub_oid_prefix +:+ tenant.

(** [RGWPubSub::bucket_meta_oid(bucket)]. *)
Definition bucket_meta_oid (tenant : string) (bucket : rgw_bucket) : string :=
  ((((pubsub_oid_prefix +:+ tenant) +:+ ".bucket.") +:+ bucket_name bucket)
   +:+ "/") +:+ marker bucket.

(** ** [rgw_rest_pubsub.cc] *)

(** What [verify_transport_security] reads: whether
    [rgw_transport_is_secure(cct, env)] holds, and the configuration value
    [rgw_allow_notification_secrets_in_cleartext]. *)
Record RGWEnv : Type := BuildEnv {
  rgw_transport_is_secure : bool;
  rgw_allow_notification_secrets_in_cleartext : bool
}.

Definition verify_transport_security (env : RGWEnv) : bool :=
  let is_secure := rgw_transport_is_secure env in
  if negb is_secure && rgw_allow_notification_secrets_in_cleartext env
  then true
  else is_secure.

Definition topic_has_endpoint_secret (t : rgw_pubsub_topic) : bool :=
  stored_secret (dest t).

Fixpoint topics_has_endpoint_secret (topics : rgw_pubsub_topics) : bool :=
  match topics with
  | [] => false
  | t :: rest =>
      if topic_has_endpoint_secret t.2 then true
      else topics_has_endpoint_secret rest
  end.

(** [RGWHTTPArgs] is declared elsewhere: the arguments of the request by
    name, in the order of the names; [get] gives the value, the empty
    string for a name that is not there. *)
Abbreviation RGWHTTPArgs := (list (string * string)) (only parsing).

Fixpoint args_lookup (name : string) (args : RGWHTTPArgs) : option string :=
  match args with
  | [] => None
  | p :: rest => if String.eqb p.1 name then Some p.2 else args_lookup name rest
  end.

Definition args_exists (name : string) (args : RGWHTTPArgs) : bool :=
  match args_lookup name args with
  | Some _ => true
  | None => false
  end.

Definition args_get (name : string) (args : RGWHTTPArgs) : string :=
  match args_lookup name args with
  | Some v => v
  | None => EmptyString
  end.

(** The actions of the topic handler, [op_generators]. *)
Inductive topic_op : Type :=
| RGWPSCreateTopicOp
| RGWPSDeleteTopicOp
| RGWPSListTopicsOp
| RGWPSGetTopicOp
| RGWPSGetTopicAttributesOp.

Definition op_generators : list (string * topic_op) :=
  [("CreateTopic"%string, RGWPSCreateTopicOp);
   ("DeleteTopic"%string, RGWPSDeleteTopicOp);
   ("ListTopics"%string, RGWPSListTopicsOp);
   ("GetTopic"%string, RGWPSGetTopicOp);
   ("GetTopicAttributes"%string, RGWPSGetTopicAttributesOp)].

(** [op_generators.find(action_name)]; the keys are all different, so the
    first entry with the key is the entry. *)
Fixpoint op_generators_find (action_name : string)
    (m : list (string * topic_op)) : option topic_op :=
  match m with
  | [] => None
  | p :: rest =>
      if String.eqb p.1 action_name then Some p.2
      else op_generators_find action_name rest
  end.

(** The part of [req_state] that the topic handler reads and writes. *)
Record req_state : Type := BuildReq {
  args : RGWHTTPArgs;
  dialect : string;
  prot_flags : Z
}.

(** [RGWHandler_REST_PSTopic_AWS::action_exists]. *)
Definition action_exists (s : req_state) : bool :=
  if args_exists "Action" (args s) then
    match op_generators_find (args_get "Action" (args s)) op_generators with
    | Some _ => true
    | None => false
    end
  else false.

(** [topic_to_unique]. *)
Definition topic_to_unique (topic notification : string) : string :=
  (notification +:+ "_") +:+ topic.

(** [unique_to_topic]; [None] when [substr] throws. *)
Definition unique_to_topic (unique_topic notification : string)
  : option string :=
  match find unique_topic (notification +:+ "_") with
  | None => Some EmptyString
  | Some _ => substr unique_topic (String.length notification + 1)
  end.

(** [find_unique_topic]: [std::find_if] over the topics of the bucket. *)
Fixpoint find_unique_topic (bucket_topics : rgw_pubsub_bucket_topics)
    (notif_name : string) : option rgw_pubsub_topic_filter :=
  match bucket_topics with
  | [] => None
  | val :: rest =>
      if String.eqb notif_name (s3_id val.2) then Some val.2
      else find_unique_topic rest notif_name
  end.

Section Handler.

(** [RGW_REST_STS], defined elsewhere. *)
Variable RGW_REST_STS : Z.

(** [RGWHandler_REST_PSTopic_AWS::op_post]: the request as it leaves, and
    the operation, [None] for [nullptr]. *)
Definition op_post (s : req_state) : req_state * option topic_op :=
  let s1 := BuildReq (args s) "sns" RGW_REST_STS in
  if args_exists "Action" (args s1) then
    (s1, op_generators_find (args_get "Action" (args s1)) op_generators)
  else (s1, None).

End Handler.

Section Endpoint.

(** [rgw::parse_url_userinfo], defined elsewhere: the user and the
    password inside the URL, [None] when it returns [false]. *)
Variable parse_url_userinfo : string -> option (string * string).

(** [validate_and_update_endpoint_secret]: the result and [dest] as it is
    left; [None] when the [ceph_assert] fails. *)
Definition validate_and_update_endpoint_secret (d : rgw_pubsub_dest)
    (env : RGWEnv) : option (bool * rgw_pubsub_dest) :=
  if empty (push_endpoint d) then Some (true, d)
  else
    match parse_url_userinfo (push_endpoint d) with
    | None => Some (false, d)
    | Some (user, password) =>
        if negb (Bool.eqb (empty user) (empty password)) then None
        else if negb (empty user) then
          let d1 := set_stored_secret true d in
          if negb (verify_transport_security env) then Some (false, d1)
          else Some (true, d1)
        else Some (true, d)
    end.

End Endpoint.

(** *** The store behind the operations

    [RGWPubSub], [RGWPubSub::Bucket] and [rgw::notify] are declared in the
    sources and defined elsewhere.  An operation's calls to them are
    recorded in the order they are made; what a call returns, and what it
    reads, may depend on all the calls made before it. *)
Inductive call : Type :=
| ps_get_topics
| ps_get_topic (name : string)
| ps_create_topic (name : string) (d : rgw_pubsub_dest) (arn opaque : string)
| ps_remove_topic (name : string)
| b_get_topics
| b_create_notification (topic_name : string) (events : list EventType)
    (filter : rgw_s3_filter) (notif_name : string)
| b_remove_notification (topic_name : string)
| add_persistent_topic (name : string)
| remove_persistent_topic (name : string).

Record store : Type := BuildStore {
  returns : list call -> call -> Z;
  read_topics : list call -> rgw_pubsub_topics;
  read_topic : list call -> string -> rgw_pubsub_topic;
  read_bucket_topics : list call -> rgw_pubsub_bucket_topics
}.

(** An operation runs from the calls made so far to its result and the
    calls made then. *)
Definition Ext (A : Type) : Type := list call -> A * list call.

Definition ext_ret {A : Type} (a : A) : Ext A := fun h => (a, h).

Definition ext_bind {A B : Type} (m : Ext A) (k : A -> Ext B) : Ext B :=
  fun h => let (a, h1) := m h in k a h1.

Notation "x <- m ; k" := (ext_bind m (fun x => k))
  (at level 100, m at next level, right associativity).

Definition do_call (st : store) (c : call) : Ext Z :=
  fun h => (returns st h c, h ++ [c]).

(** [remove_notification_by_topic]. *)
Definition remove_notification_by_topic (st : store) (topic_name : string)
  : Ext Z :=
  op_ret <- do_call st (b_remove_notification topic_name) ;
  op_ret <- do_call st (ps_remove_topic topic_name) ;
  ext_ret op_ret.

(** [delete_all_notifications]. *)
Fixpoint delete_all_notifications (st : store)
    (bucket_topics : rgw_pubsub_bucket_topics) : Ext Z :=
  match bucket_topics with
  | [] => ext_ret 0
  | t :: rest =>
      op_ret <- remove_notification_by_topic st t.1 ;
      if op_ret <? 0 then ext_ret op_ret
      else delete_all_notifications st rest
  end.

(** [RGWPSListTopicsOp::execute]: [op_ret] and [result]. *)
Definition list_topics_execute (st : store) (env : RGWEnv)
  : Ext (Z * rgw_pubsub_topics) :=
  fun h =>
    let result := read_topics st h in
    let (op_ret, h1) := do_call st ps_get_topics h in
    let op_ret := if op_ret =? - ENOENT then 0 else op_ret in
    if op_ret <? 0 then ((op_ret, result), h1)
    else if topics_has_endpoint_secret result
            && negb (verify_transport_security env)
    then ((- EPERM, result), h1)
    else ((op_ret, result), h1).

Section GetTopicOp.

(** [rgw::ARN::parse], defined elsewhere: the resource of the ARN, [None]
    when the string does not parse. *)
Variable arn_parse : string -> option string.

(** [RGWPSGetTopicOp::get_params], and [RGWPSGetTopicAttributesOp]'s, which
    is the same: the result and [topic_name]. *)
Definition get_topic_get_params (s_args : RGWHTTPArgs) (topic_name : string)
  : Z * string :=
  match arn_parse (args_get "TopicArn" s_args) with
  | None => (- EINVAL, topic_name)
  | Some resource =>
      if empty resource then (- EINVAL, topic_name) else (0, resource)
  end.

(** [RGWPSGetTopicOp::execute], and [RGWPSGetTopicAttributesOp]'s, which is
    the same: [op_ret] and [result].  The operation is new, its
    [topic_name] empty and its [result] default-constructed. *)
Definition get_topic_execute (st : store) (env : RGWEnv)
    (s_args : RGWHTTPArgs) : Ext (Z * rgw_pubsub_topic) :=
  fun h =>
    let result0 := BuildTopic (BuildUser "" "") "" rgw_pubsub_dest_default
                     "" "" in
    let (op_ret, topic_name) := get_topic_get_params s_args "" in
    if op_ret <? 0 then ((op_ret, result0), h)
    else
      let result := read_topic st h topic_name in
      let (op_ret, h1) := do_call st (ps_get_topic topic_name) h in
      if op_ret <? 0 then ((op_ret, result), h1)
      else if topic_has_endpoint_secret result
              && negb (verify_transport_security env)
      then ((- EPERM, result), h1)
      else ((op_ret, result), h1).

(** [RGWPSDeleteTopicOp::get_params]: the result and [topic_name]. *)
Definition delete_topic_get_params (st : store) (s_args : RGWHTTPArgs)
    (topic_name : string) : Ext (Z * string) :=
  match arn_parse (args_get "TopicArn" s_args) with
  | None => ext_ret (- EINVAL, topic_name)
  | Some resource =>
      if empty resource then ext_ret (- EINVAL, topic_name)
      else
        ret <- do_call st (remove_persistent_topic resource) ;
        if ret =? - ENOENT then ext_ret (0, resource)
        else if ret <? 0 then ext_ret (ret, resource)
        else ext_ret (0, resource)
  end.

(** [RGWPSDeleteTopicOp::execute]: [op_ret].  The operation is new, its
    [topic_name] empty. *)
Definition delete_topic_execute (st : store) (s_args : RGWHTTPArgs)
  : Ext Z :=
  p <- delete_topic_get_params st s_args "" ;
  if p.1 <? 0 then ext_ret p.1
  else
    op_ret <- do_call st (ps_remove_topic p.2) ;
    ext_ret op_ret.

End GetTopicOp.

(** The loop of [RGWPSListNotifsOp::execute] over the topics of the
    bucket. *)
Fixpoint list_s3_notifications (bucket_topics : rgw_pubsub_bucket_topics)
    (notifications : list rgw_pubsub_topic_filter)
  : list rgw_pubsub_topic_filter :=
  match bucket_topics with
  | [] => notifications
  | t :: rest =>
      if empty (s3_id t.2) then list_s3_notifications rest notifications
      else list_s3_notifications rest (notifications ++ [t.2])
  end.

(** [RGWPSListNotifsOp::execute]: [op_ret] and [notifications.list].  Each
    notification is constructed from a topic of the bucket and is given as
    that topic. *)
Definition list_notifs_execute (st : store) (notif_name : string)
    (notifications : list rgw_pubsub_topic_filter)
  : Ext (Z * list rgw_pubsub_topic_filter) :=
  fun h =>
    let bucket_topics := read_bucket_topics st h in
    let (op_ret, h1) := do_call st b_get_topics h in
    if op_ret <? 0 then ((op_ret, notifications), h1)
    else if negb (empty notif_name) then
      match find_unique_topic bucket_topics notif_name with
      | Some unique_topic => ((op_ret, notifications ++ [unique_topic]), h1)
      | None => ((- ENOENT, notifications), h1)
      end
    else ((op_ret, list_s3_notifications bucket_topics notifications), h1).

(** [RGWPSDeleteNotifOp::get_params]: the result and [notif_name]. *)
Definition delete_notif_get_params (s_args : RGWHTTPArgs)
    (s_bucket_name : string) : Z * string :=
  let notif_name := args_get "notification" s_args in
  if negb (args_exists "notification" s_args) then (- EINVAL, notif_name)
  else if empty s_bucket_name then (- EINVAL, notif_name)
  else (0, notif_name).

(** [RGWPSDeleteNotifOp::execute]. *)
Definition delete_notif_execute (st : store) (s_args : RGWHTTPArgs)
    (s_bucket_name : string) : Ext Z :=
  let (op_ret, notif_name) := delete_notif_get_params s_args s_bucket_name in
  if op_ret <? 0 then ext_ret op_ret
  else
    fun h =>
      let bucket_topics := read_bucket_topics st h in
      let (op_ret, h1) := do_call st b_get_topics h in
      if op_ret <? 0 then (op_ret, h1)
      else if negb (empty notif_name) then
        match find_unique_topic bucket_topics notif_name with
        | Some unique_topic =>
            remove_notification_by_topic st (name (topic unique_topic)) h1
        | None => (op_ret, h1)
        end
      else delete_all_notifications st bucket_topics h1.

(** The members of [RGWPSCreateTopicOp]. *)
Record create_topic_op : Type := BuildCreateTopic {
  ct_topic_name : string;
  ct_dest : rgw_pubsub_dest;
  ct_topic_arn : string;
  ct_opaque_data : string
}.

(** The loop of [RGWPSCreateTopicOp::get_params] over the arguments. *)
Fixpoint append_params (params : RGWHTTPArgs) (push_endpoint_args : string)
  : string :=
  match params with
  | [] => push_endpoint_args
  | param :: rest =>
      if String.eqb param.1 "Action" || String.eqb param.1 "Name"
         || String.eqb param.1 "PayloadHash"
      then append_params rest push_endpoint_args
      else append_params rest
             (push_endpoint_args +:+ (((param.1 +:+ "=") +:+ param.2) +:+ "&"))
  end.

(** The arguments of the endpoint as [RGWPSCreateTopicOp::get_params]
    collects them: the loop, and the removal of the last separator. *)
Definition collect_push_endpoint_args (s_args : RGWHTTPArgs)
    (d : rgw_pubsub_dest) : rgw_pubsub_dest :=
  let d1 := set_push_endpoint_args
              (append_params s_args (push_endpoint_args d)) d in
  if negb (empty (push_endpoint_args d1))
  then set_push_endpoint_args (pop_back (push_endpoint_args d1)) d1
  else d1.

Section CreateTopic.

Variable parse_url_userinfo : string -> option (string * string).

(** [RGWHTTPArgs::get_bool(name, &val, def_val)], defined elsewhere: the
    value it leaves in [val]. *)
Variable args_get_bool : RGWHTTPArgs -> string -> bool -> bool.

(** [rgw::ARN(aws, sns, zonegroup, tenant, topic).to_string()], defined
    elsewhere. *)
Variable arn_to_string : string -> string -> string -> string.

(** [RGWPSCreateTopicOp::get_params]: the result and the members as they
    are left; [None] when the [ceph_assert] of the endpoint validation
    fails. *)
Definition create_topic_get_params (st : store) (s_args : RGWHTTPArgs)
    (env : RGWEnv) (zonegroup s_tenant : string) (op : create_topic_op)
    (h : list call) : option (Z * create_topic_op * list call) :=
  let topic_name := args_get "Name" s_args in
  if empty topic_name then
    Some (- EINVAL,
          BuildCreateTopic topic_name (ct_dest op) (ct_topic_arn op)
            (ct_opaque_data op), h)
  else
    let opaque_data := args_get "OpaqueData" s_args in
    let d1 := set_push_endpoint (args_get "push-endpoint" s_args) (ct_dest op) in
    let d2 := set_persistent (args_get_bool s_args "persistent" false) d1 in
    match validate_and_update_endpoint_secret parse_url_userinfo d2 env with
    | None => None
    | Some (false, d3) =>
        Some (- EINVAL,
              BuildCreateTopic topic_name d3 (ct_topic_arn op) opaque_data, h)
    | Some (true, d3) =>
        let d5 := collect_push_endpoint_args s_args d3 in
        let finish (h1 : list call) :=
          Some (0,
                BuildCreateTopic topic_name (set_arn_topic topic_name d5)
                  (arn_to_string zonegroup s_tenant topic_name) opaque_data,
                h1) in
        if negb (empty (push_endpoint d5)) && persistent d5 then
          let (ret, h1) := do_call st (add_persistent_topic topic_name) h in
          if ret <? 0 then
            Some (ret,
                  BuildCreateTopic topic_name d5 (ct_topic_arn op) opaque_data,
                  h1)
          else finish h1
        else finish h
    end.

(** [RGWPSCreateTopicOp::execute]: [op_ret] and the members as they are
    left. *)
Definition create_topic_execute (st : store) (s_args : RGWHTTPArgs)
    (env : RGWEnv) (zonegroup s_tenant : string) (op : create_topic_op)
    (h : list call) : option (Z * create_topic_op * list call) :=
  match create_topic_get_params st s_args env zonegroup s_tenant op h with
  | None => None
  | Some (op_ret, op1, h1) =>
      if op_ret <? 0 then Some (op_ret, op1, h1)
      else
        let (op_ret, h2) :=
          do_call st (ps_create_topic (ct_topic_name op1) (ct_dest op1)
                        (ct_topic_arn op1) (ct_opaque_data op1)) h1 in
        Some (op_ret, op1, h2)
  end.

End CreateTopic.

(** *** Encoding

    [ENCODE_START], [ENCODE_FINISH], [DECODE_START], [DECODE_FINISH] and the
    coders of strings, booleans and [rgw_user] are defined elsewhere.  A
    buffer is a list over some alphabet [B]; [encode(x, bl)] appends the
    bytes of [x] to [bl], [decode(x, bl)] reads [x] from the front of what
    is left and fails ([None]) where the source throws.  The string
    literal that [rgw_pubsub_dest::encode] writes twice is written by the
    coder of strings, which is the one [decode] reads it back with.

    [encode_start v compat body] is what [ENCODE_START(v, compat, bl)],
    the encoding [body] and [ENCODE_FINISH(bl)] append.
    [decode_start v bl] is [DECODE_START(v, bl)]: [struct_v], the bytes of
    the struct, and the bytes after it, where [DECODE_FINISH(bl)] goes
    on. *)
Record encoding (B : Type) : Type := BuildEncoding {
  encode_string : string -> list B;
  decode_string : list B -> option (string * list B);
  encode_bool : bool -> list B;
  decode_bool : list B -> option (bool * list B);
  encode_user : rgw_user -> list B;
  decode_user : list B -> option (rgw_user * list B);
  encode_start : Z -> Z -> list B -> list B;
  decode_start : Z -> list B -> option (Z * list B * list B)
}.

Arguments encode_string {B} _ _.
Arguments decode_string {B} _ _.
Arguments encode_bool {B} _ _.
Arguments decode_bool {B} _ _.
Arguments encode_user {B} _ _.
Arguments decode_user {B} _ _.
Arguments encode_start {B} _ _ _ _.
Arguments decode_start {B} _ _ _.

(** What a coder is relied on for: a value is read back as it was
    written, with what follows it left over, and a struct written with
    [struct_compat] no greater than the version the reader knows is opened
    with the version it was written with. *)
Definition encoding_laws {B : Type} (E : encoding B) : Prop :=
  (forall s rest, decode_string E (encode_string E s ++ rest)
                  = Some (s, rest)) /\
  (forall b rest, decode_bool E (encode_bool E b ++ rest) = Some (b, rest)) /\
  (forall u rest, decode_user E (encode_user E u ++ rest) = Some (u, rest)) /\
  (forall v compat body rest maxv,
     compat <= maxv ->
     decode_start E maxv (encode_start E v compat body ++ rest)
     = Some (v, body, rest)).

(** A coder that writes one token for each value. *)
#[warnings="-register-all"]
Inductive token : Type :=
| tok_string (s : string)
| tok_bool (b : bool)
| tok_user (u : rgw_user)
| tok_struct (v compat : Z) (body : list token).

Definition token_encoding : encoding token :=
  BuildEncoding token
    (fun s => [tok_string s])
    (fun bl => match bl with
               | tok_string s :: rest => Some (s, rest)
               | _ => None
               end)
    (fun b => [tok_bool b])
    (fun bl => match bl with
               | tok_bool b :: rest => Some (b, rest)
               | _ => None
               end)
    (fun u => [tok_user u])
    (fun bl => match bl with
               | tok_user u :: rest => Some (u, rest)
               | _ => None
               end)
    (fun v compat body => [tok_struct v compat body])
    (fun maxv bl => match bl with
                    | tok_struct v compat body :: rest =>
                        if compat <=? maxv then Some (v, body, rest) else None
                    | _ => None
                    end).

Section Coders.

Context {B : Type} (E : encoding B).

(** [rgw_pubsub_dest::encode]. *)
Definition dest_encode (d : rgw_pubsub_dest) (bl : list B) : list B :=
  bl ++ encode_start E 5 1
          (encode_string E "" ++
           encode_string E "" ++
           encode_string E (push_endpoint d) ++
           encode_string E (push_endpoint_args d) ++
           encode_string E (arn_topic d) ++
           encode_bool E (stored_secret d) ++
           encode_bool E (persistent d)).

(** [rgw_pubsub_dest::decode]: the object as it is left and the bytes that
    follow the struct. *)
Definition dest_decode (d : rgw_pubsub_dest) (bl : list B)
  : option (rgw_pubsub_dest * list B) :=
  '(struct_v, body, rest) ← decode_start E 5 bl;
  '(dummy, body) ← decode_string E body;
  '(dummy, body) ← decode_string E body;
  '(v, body) ← decode_string E body;
  let d := set_push_endpoint v d in
  '(d, body) ← (if 2 <=? struct_v
                then '(v, body) ← decode_string E body;
                     Some (set_push_endpoint_args v d, body)
                else Some (d, body));
  '(d, body) ← (if 3 <=? struct_v
                then '(v, body) ← decode_string E body;
                     Some (set_arn_topic v d, body)
                else Some (d, body));
  '(d, body) ← (if 4 <=? struct_v
                then '(v, body) ← decode_bool E body;
                     Some (set_stored_secret v d, body)
                else Some (d, body));
  '(d, body) ← (if 5 <=? struct_v
                then '(v, body) ← decode_bool E body;
                     Some (set_persistent v d, body)
                else Some (d, body));
  Some (d, rest).

(** [rgw_pubsub_topic::encode]. *)
Definition topic_encode (t : rgw_pubsub_topic) (bl : list B) : list B :=
  bl ++ encode_start E 3 1
          (let body := encode_user E (user t) in
           let body := body ++ encode_string E (name t) in
           let body := dest_encode (dest t) body in
           let body := body ++ encode_string E (arn t) in
           body ++ encode_string E (opaque_data t)).

(** [rgw_pubsub_topic::decode]. *)
Definition topic_decode (t : rgw_pubsub_topic) (bl : list B)
  : option (rgw_pubsub_topic * list B) :=
  '(struct_v, body, rest) ← decode_start E 3 bl;
  '(u, body) ← decode_user E body;
  '(n, body) ← decode_string E body;
  '(d, a, body) ← (if 2 <=? struct_v
                   then '(d, body) ← dest_decode (dest t) body;
                        '(a, body) ← decode_string E body;
                        Some (d, a, body)
                   else Some (dest t, arn t, body));
  '(o, body) ← (if 3 <=? struct_v
                then decode_string E body
                else Some (opaque_data t, body));
  Some (BuildTopic u n d a o, rest).

End Coders.

End rgw.

Import ProtocolV2.

(** * Properties *)

(** ** The name table *)

Lemma static_cast_int_range (s : state_t) :
  0 <= static_cast_int s < Z.of_nat (length statenames).
Proof. destruct s; cbn; lia. Qed.

Lemma static_cast_int_inj (s1 s2 : state_t) :
  static_cast_int s1 = static_cast_int s2 -> s1 = s2.
Proof. destruct s1, s2; cbn; intros H; try reflexivity; discriminate H. Qed.

(** C9: for each of the ten values of [state_t], [get_state_name] indexes
    [statenames] inside the array and returns the spelling of that
    enumerator; the table is in the order of the enum, [NONE = 0] first and
    [CLOSING = 9] last. *)
Theorem get_state_name_spelling :
  (forall s, 0 <= static_cast_int s < Z.of_nat (length statenames)) /\
  (static_cast_int <$> [NONE; ACCEPTING; SERVER_WAIT; ESTABLISHING;
                        CONNECTING; READY; STANDBY; WAIT; REPLACING; CLOSING]
   = [0; 1; 2; 3; 4; 5; 6; 7; 8; 9]) /\
  get_state_name NONE = Some "NONE"%string /\
  get_state_name ACCEPTING = Some "ACCEPTING"%string /\
  get_state_name SERVER_WAIT = Some "SERVER_WAIT"%string /\
  get_state_name ESTABLISHING = Some "ESTABLISHING"%string /\
  get_state_name CONNECTING = Some "CONNECTING"%string /\
  get_state_name READY = Some "READY"%string /\
  get_state_name STANDBY = Some "STANDBY"%string /\
  get_state_name WAIT = Some "WAIT"%string /\
  get_state_name REPLACING = Some "REPLACING"%string /\
  get_state_name CLOSING = Some "CLOSING"%string.
Proof.
  split; [exact static_cast_int_range|].
  repeat split; reflexivity.
Qed.

(** ** The backoff timer *)

Lemma cancel_as_none (tm : Timer.t) : Timer.as_ (Timer.cancel tm).1 = None.
Proof. destruct tm as [d c [a|]]; reflexivity. Qed.

(** C8: after [cancel()] the timer's [last_dur()] is [0.0], it holds no
    abort source any more (no delay is pending), and the abort source of the
    delay that was in progress, if there was one, has been asked to abort. *)
Theorem timer_cancel (tm : Timer.t) :
  Timer.last_dur (Timer.cancel tm).1 = 0%float /\
  Timer.as_ (Timer.cancel tm).1 = None /\
  (Timer.cancel tm).2 = Timer.as_ tm.
Proof.
  split; [|split; [apply cancel_as_none|]];
    destruct tm as [d c [a|]]; reflexivity.
Qed.

(** ** The engine as constructed *)

(** C10: a freshly constructed engine is in state [NONE]; its cookies,
    sequence numbers and peer features are [0]; it is not closed and has no
    socket; [exit_io] is unset and [execution_done] is resolved; hence
    [wait_exit_io] on it returns a future that is ready at once. *)
Theorem construct_defaults (conn messenger io_handler : handle)
    (fa : option FrameAssemblerV2) (am : option AuthConnectionMeta)
    (r : seastar.reactor) :
  state (construct conn messenger io_handler fa am) = NONE /\
  client_cookie (construct conn messenger io_handler fa am) = 0 /\
  server_cookie (construct conn messenger io_handler fa am) = 0 /\
  global_seq (construct conn messenger io_handler fa am) = 0 /\
  peer_global_seq (construct conn messenger io_handler fa am) = 0 /\
  connect_seq (construct conn messenger io_handler fa am) = 0 /\
  peer_supported_features (construct conn messenger io_handler fa am) = 0 /\
  closed (construct conn messenger io_handler fa am) = false /\
  has_socket (construct conn messenger io_handler fa am) = false /\
  is_socket_valid (construct conn messenger io_handler fa am) = false /\
  exit_io (construct conn messenger io_handler fa am) = None /\
  seastar.available r
    (execution_done (construct conn messenger io_handler fa am)) = true /\
  wait_exit_io (construct conn messenger io_handler fa am) = seastar.now /\
  seastar.available r
    (wait_exit_io (construct conn messenger io_handler fa am)) = true.
Proof. repeat split. Qed.

(** ** The execution gate *)

Section Reactor.

Import seastar.

Lemma foldr_invariant {A B : Type} (f : A -> B -> B) (P : B -> Prop)
    (l : list A) (b : B) :
  P b -> (forall a b', a ∈ l -> P b' -> P (f a b')) -> P (foldr f b l).
Proof.
  intros Hb Hstep. induction l as [|a l IH]; cbn; [exact Hb|].
  apply Hstep; [left|].
  apply IH. intros a' b' Ha'. apply Hstep. now right.
Qed.

Lemma waiters_made (p q : promise_id) (r : reactor) :
  reactor_wf r -> q ∈ waiters p r -> (q < next_promise r)%nat.
Proof.
  intros [_ Hc] Hq. unfold waiters in Hq.
  apply list_elem_of_fmap in Hq as [c [-> Hin]].
  apply list_elem_of_filter in Hin as [_ Hin]. now apply Hc.
Qed.

Lemma mark_resolves (p : promise_id) (r : reactor) :
  reactor_wf r -> (p < next_promise r)%nat -> resolves p r (mark p r).
Proof.
  intros [Hr Hc] Hp. split; [split|]; cbn.
  - intros x Hx. apply elem_of_union in Hx as [Hx|Hx]; [|now apply Hr].
    apply elem_of_singleton in Hx. now subst.
  - exact Hc.
  - repeat split; set_solver.
Qed.

Lemma set_value_upto_resolves (n : nat) :
  forall (p : promise_id) (r : reactor),
    reactor_wf r -> (p < next_promise r)%nat ->
    resolves p r (set_value_upto n p r).
Proof.
  induction n as [|n IH]; intros p r Hwf Hp; cbn [set_value_upto].
  - now apply mark_resolves.
  - apply (foldr_invariant _ (resolves p r)).
    + now apply mark_resolves.
    + intros q r' Hq (Hwf' & Hn & Hk & Hmono & Hin).
      assert (Hq' : (q < next_promise r')%nat).
      { rewrite Hn. now apply (waiters_made p). }
      destruct (IH q r' Hwf' Hq') as (Hwf'' & Hn' & Hk' & Hmono' & _).
      repeat split; try apply Hwf''; try congruence; auto.
Qed.

Lemma set_value_resolves (p : promise_id) (r : reactor) :
  reactor_wf r -> (p < next_promise r)%nat -> resolves p r (set_value p r).
Proof. apply set_value_upto_resolves. Qed.

Lemma foldr_set_value_upto (n : nat) (l : list promise_id) (r : reactor) :
  reactor_wf r -> (forall x, x ∈ l -> (x < next_promise r)%nat) ->
  reactor_wf (foldr (set_value_upto n) r l) /\
  next_promise (foldr (set_value_upto n) r l) = next_promise r /\
  (forall x, x ∈ resolved r -> x ∈ resolved (foldr (set_value_upto n) r l)) /\
  (forall x, x ∈ l -> x ∈ resolved (foldr (set_value_upto n) r l)).
Proof.
  intros Hwf. induction l as [|a l IH]; intros Hl; cbn [foldr].
  - repeat split; try apply Hwf; auto. intros x Hx. inversion Hx.
  - destruct IH as (Hwf' & Hn & Hmono & Hall).
    { intros x Hx. apply Hl. now right. }
    assert (Ha : (a < next_promise (foldr (set_value_upto n) r l))%nat).
    { rewrite Hn. apply Hl. left. }
    destruct (set_value_upto_resolves n a _ Hwf' Ha)
      as (Hwf'' & Hn' & _ & Hmono' & Hin).
    split; [exact Hwf''|]. split; [congruence|]. split; [auto|].
    intros x Hx. apply elem_of_cons in Hx as [->|Hx]; auto.
Qed.

(** The continuation queued behind a promise runs when the promise is
    given its value. *)
Lemma set_value_runs_continuation (q pr : promise_id) (r : reactor) :
  reactor_wf r -> (q < next_promise r)%nat ->
  (q, pr) ∈ continuations r ->
  pr ∈ resolved (set_value q r).
Proof.
  intros Hwf Hq Hin. unfold set_value.
  destruct (continuations r) as [|c cs] eqn:Hcs; [inversion Hin|].
  cbn [length set_value_upto].
  destruct (mark_resolves q r Hwf Hq) as (Hwf' & Hn & Hk & _).
  apply (foldr_set_value_upto _ (waiters q r) (mark q r) Hwf').
  - intros x Hx. rewrite Hn. now apply (waiters_made q).
  - unfold waiters. apply list_elem_of_fmap. exists (q, pr).
    split; [reflexivity|]. apply list_elem_of_filter. split; [reflexivity|].
    now rewrite Hcs.
Qed.

Lemma new_promise_fresh (r : reactor) :
  reactor_wf r -> available r (get_future (next_promise r)) = false.
Proof.
  intros [Hr _]. cbn. apply bool_decide_eq_false. intros Hin.
  apply Hr in Hin. lia.
Qed.

Lemma new_promise_wf (r : reactor) :
  reactor_wf r -> reactor_wf (new_promise r).2.
Proof.
  intros [Hr Hc]. split; cbn; intros x Hx;
    [apply Hr in Hx | apply Hc in Hx]; lia.
Qed.

Lemma finally_set_value_wf (fut : future) (pr : promise_id) (r : reactor) :
  reactor_wf r -> (pr < next_promise r)%nat ->
  reactor_wf (finally_set_value fut pr r).2 /\
  next_promise (finally_set_value fut pr r).2 = next_promise r /\
  (forall x, x ∈ resolved r -> x ∈ resolved (finally_set_value fut pr r).2) /\
  ((finally_set_value fut pr r).1 = now \/
   (finally_set_value fut pr r).1 = get_future pr).
Proof.
  intros Hwf Hpr. unfold finally_set_value.
  destruct fut as [|q].
  - destruct (set_value_resolves pr r Hwf Hpr) as (? & ? & _ & ? & _).
    cbn [fst snd]. split; [assumption|]. split; [assumption|].
    split; [assumption|now left].
  - destruct (available r (get_future q)).
    + destruct (set_value_resolves pr r Hwf Hpr) as (? & ? & _ & ? & _).
      cbn [fst snd]. split; [assumption|]. split; [assumption|].
      split; [assumption|now left].
    + cbn [fst snd]. split; [|split; [reflexivity|split; [auto|now right]]].
      destruct Hwf as [Hr Hc]. split; cbn; [exact Hr|].
      intros c Hc'. apply elem_of_cons in Hc' as [->|Hc']; [exact Hpr|].
      now apply Hc.
Qed.

Lemma available_mono (r r' : reactor) (f : future) :
  (forall x, x ∈ resolved r -> x ∈ resolved r') ->
  available r f = true -> available r' f = true.
Proof.
  intros Hmono. destruct f as [|p]; cbn; [reflexivity|].
  rewrite !bool_decide_eq_true. apply Hmono.
Qed.

Lemma unavailable_mono (r r' : reactor) (f : future) :
  (forall x, x ∈ resolved r -> x ∈ resolved r') ->
  available r' f = false -> available r f = false.
Proof.
  intros Hmono Hf. destruct (available r f) eqn:E; [|reflexivity].
  now rewrite (available_mono r r' f Hmono E) in Hf.
Qed.

End Reactor.

Section Gate.

Import seastar.

(** The engine that the new execution finds: the unready future is in the
    gate and [execution_done] is the future of the new promise. *)
Lemma gated_execute_enter_unready (w : world) :
  available (rx w) (execution_done (this w)) = false ->
  gated_execute_enter w =
    (next_promise (rx w),
     World (set_execution_done (get_future (next_promise (rx w)))
              (set_gate (BuildGated
                           (("gated_execute_abandon"%string,
                             execution_done (this w))
                            :: pending_dispatch (gate (this w))))
                        (this w)))
           (new_promise (rx w)).2).
Proof.
  intros Hun. unfold gated_execute_enter, bind, execution_done_available.
  rewrite Hun. reflexivity.
Qed.

Lemma gated_execute_enter_ready (w : world) :
  available (rx w) (execution_done (this w)) = true ->
  gated_execute_enter w =
    (next_promise (rx w),
     World (set_execution_done (get_future (next_promise (rx w))) (this w))
           (new_promise (rx w)).2).
Proof.
  intros Hav. unfold gated_execute_enter, bind, execution_done_available.
  rewrite Hav. reflexivity.
Qed.

Lemma gated_execute_enter_spec (w : world) :
  world_wf w ->
  (gated_execute_enter w).1 = next_promise (rx w) /\
  world_wf (gated_execute_enter w).2 /\
  next_promise (rx (gated_execute_enter w).2) = S (next_promise (rx w)) /\
  execution_done (this (gated_execute_enter w).2)
    = get_future (next_promise (rx w)) /\
  (forall x, x ∈ pending_dispatch (gate (this w)) ->
             x ∈ pending_dispatch (gate (this (gated_execute_enter w).2))) /\
  resolved (rx (gated_execute_enter w).2) = resolved (rx w).
Proof.
  intros [Hwf Hmade].
  destruct (available (rx w) (execution_done (this w))) eqn:Hav;
    [rewrite (gated_execute_enter_ready w Hav)
    |rewrite (gated_execute_enter_unready w Hav)]; cbn;
    (split; [reflexivity|]);
    (split; [split; [now apply new_promise_wf | cbn; lia]|]);
    (split; [reflexivity|]); (split; [reflexivity|]);
    (split; [|reflexivity]).
  - auto.
  - intros x Hx. now right.
Qed.

(** The execution in flight when [gated_execute] is entered is in the gate
    afterwards, unless it had finished. *)
Lemma gated_execute_enter_superseded (w : world) :
  superseded w (gated_execute_enter w).2.
Proof.
  destruct (available (rx w) (execution_done (this w))) eqn:Hav.
  - rewrite (gated_execute_enter_ready w Hav). right. right. exact Hav.
  - rewrite (gated_execute_enter_unready w Hav). right. left. cbn. left.
Qed.

Lemma gated_execute_enter_one_active (w : world) :
  one_active_driver w -> one_active_driver (gated_execute_enter w).2.
Proof.
  intros Hone what p Hin Hun.
  destruct (available (rx w) (execution_done (this w))) eqn:Hav.
  - rewrite (gated_execute_enter_ready w Hav) in *. cbn in *.
    destruct (Hone what p Hin Hun) as [He|Hab]; [|now right].
    rewrite He in Hav. cbn in Hav. congruence.
  - rewrite (gated_execute_enter_unready w Hav) in *. cbn in *.
    apply elem_of_cons in Hin as [Heq|Hin].
    + right. injection Heq as _ Hold. rewrite Hold. left.
    + destruct (Hone what p Hin Hun) as [He|Hab].
      * right. rewrite <- He. left.
      * right. now right.
Qed.

(** [gated_execute] as the steps it takes. *)
Lemma gated_execute_steps (what : string) (func : M future) (w : world) :
  (gated_execute what func w).2 =
    World
      (set_gate
         (BuildGated
            ((what,
              (seastar.finally_set_value (func (gated_execute_enter w).2).1
                 (gated_execute_enter w).1
                 (rx (func (gated_execute_enter w).2).2)).1)
             :: pending_dispatch
                  (gate (this (func (gated_execute_enter w).2).2))))
         (this (func (gated_execute_enter w).2).2))
      (seastar.finally_set_value (func (gated_execute_enter w).2).1
         (gated_execute_enter w).1
         (rx (func (gated_execute_enter w).2).2)).2.
Proof.
  unfold gated_execute, dispatch_in_background, bind,
    ProtocolV2.finally_set_value.
  destruct (gated_execute_enter w) as [pr w1]; cbn.
  destruct (func w1) as [fut w2]; cbn.
  destruct (seastar.finally_set_value fut pr (rx w2)) as [F r]; reflexivity.
Qed.

Lemma advances_refl (w : world) : advances w w.
Proof. split; [lia|]. split; [auto|]. split; [auto|]. now left. Qed.

Lemma advances_trans (w1 w2 w3 : world) :
  advances w1 w2 -> advances w2 w3 -> advances w1 w3.
Proof.
  intros (Hn1 & Hg1 & Hr1 & He1) (Hn2 & Hg2 & Hr2 & He2).
  split; [lia|]. split; [auto|]. split; [auto|].
  destruct He2 as [He2|[p [He2 Hp]]].
  - rewrite He2. destruct He1 as [He1|[p [He1 Hp]]]; [now left|].
    right. now exists p.
  - right. exists p. split; [exact He2|lia].
Qed.

Lemma superseded_trans (w1 w2 w3 : world) :
  superseded w1 w2 -> advances w2 w3 -> superseded w2 w3 ->
  superseded w1 w3.
Proof.
  intros [He|[Hab|Hav]] (_ & Hg & Hr & _) Hs.
  - unfold superseded in *. rewrite <- He. exact Hs.
  - right. left. now apply Hg.
  - right. right. now apply (available_mono (rx w2)).
Qed.

(** A well-behaved function is run by [gated_execute] to an engine further
    on, whose [execution_done] is the future of a promise made in the call;
    [gated_execute] with that function is well behaved in its turn. *)
Lemma gated_execute_advances (what : string) (func : M future) :
  well_behaved func ->
  forall w, world_wf w ->
    world_wf (gated_execute what func w).2 /\
    advances w (gated_execute what func w).2 /\
    superseded w (gated_execute what func w).2 /\
    (one_active_driver w ->
     one_active_driver (gated_execute what func w).2) /\
    exists p, execution_done (this (gated_execute what func w).2)
                = get_future p /\
              (next_promise (rx w) <= p)%nat.
Proof.
  intros Hfunc w Hw.
  destruct (gated_execute_enter_spec w Hw)
    as (Hpr & Hw1 & Hn1 & He1 & Hg1 & Hr1).
  pose proof (gated_execute_enter_superseded w) as Hs1.
  pose proof (gated_execute_enter_one_active w) as Hone1.
  destruct (Hfunc _ Hw1) as ([Hwf2 Hm2] & Ha2 & Hs2 & Hone2).
  pose proof Ha2 as (Hn2 & Hg2 & Hr2 & He2).
  rewrite gated_execute_steps, Hpr.
  set (w1 := (gated_execute_enter w).2) in *.
  set (w2 := (func w1).2) in *.
  assert (Hlt : (next_promise (rx w) < next_promise (rx w2))%nat) by lia.
  destruct (finally_set_value_wf (func w1).1 _ _ Hwf2 Hlt)
    as (Hwf3 & Hn3 & Hr3 & HF).
  set (F := (seastar.finally_set_value (func w1).1 (next_promise (rx w))
               (rx w2)).1) in *.
  set (r3 := (seastar.finally_set_value (func w1).1 (next_promise (rx w))
                (rx w2)).2) in *.
  assert (Hdone : exists p, execution_done (this w2) = get_future p /\
                            (next_promise (rx w) <= p)%nat).
  { destruct He2 as [He2|[p [He2 Hp]]].
    - exists (next_promise (rx w)). rewrite He2, He1. split; [reflexivity|lia].
    - exists p. split; [exact He2|lia]. }
  assert (Ha14 : advances w1
            (World (set_gate (BuildGated ((what, F)
                                :: pending_dispatch (gate (this w2))))
                             (this w2)) r3)).
  { split; [cbn; lia|]. split; [cbn; intros x Hx; right; now apply Hg2|].
    split; [cbn; auto|]. exact He2. }
  assert (Hs14 : superseded w1
            (World (set_gate (BuildGated ((what, F)
                                :: pending_dispatch (gate (this w2))))
                             (this w2)) r3)).
  { destruct Hs2 as [He|[Hab|Hav]].
    - left. exact He.
    - right. left. cbn. now right.
    - right. right. cbn. now apply (available_mono (rx w2)). }
  split; [|split; [|split; [|split]]].
  - split; [exact Hwf3|]. cbn. unfold made in *.
    destruct (execution_done (this w2)); [exact I|]. rewrite Hn3. exact Hm2.
  - split; [cbn; lia|]. split; [|split; [|right; exact Hdone]].
    + cbn. intros x Hx. right. apply Hg2, Hg1, Hx.
    + cbn. intros x Hx. apply Hr3, Hr2. now rewrite Hr1.
  - exact (superseded_trans _ _ _ Hs1 Ha14 Hs14).
  - intros Hone what' p Hin Hun. cbn in Hin, Hun |- *.
    apply elem_of_cons in Hin as [Heq|Hin].
    + assert (HFp : F = get_future p) by congruence.
      destruct HF as [HF|HF]; [congruence|].
      assert (p = next_promise (rx w)) as -> by congruence.
      rewrite <- He1.
      destruct Hs2 as [He|[Hab|Hav]].
      * now left.
      * right. now right.
      * rewrite He1 in Hav.
        pose proof (available_mono _ r3 _ Hr3 Hav) as Hav'.
        cbn in Hav'. congruence.
    + assert (Hun2 : available (rx w2) (get_future p) = false)
        by exact (unavailable_mono _ r3 (get_future p) Hr3 Hun).
      destruct (Hone2 (Hone1 Hone) what' p Hin Hun2) as [He|Hab].
      * now left.
      * right. now right.
  - exact Hdone.
Qed.

Lemma gated_execute_well_behaved (what : string) (func : M future) :
  well_behaved func ->
  well_behaved (fun w => (now, (gated_execute what func w).2)).
Proof.
  intros Hfunc w Hw. cbn.
  destruct (gated_execute_advances what func Hfunc w Hw)
    as (? & ? & ? & ? & _).
  split; [assumption|]. split; [assumption|]. split; assumption.
Qed.

Lemma invoke_well_behaved (f : Func) : well_behaved (invoke f).
Proof.
  induction f as [| |what inner IHinner rest IHrest]; intros w Hw.
  - split; [exact Hw|]. split; [apply advances_refl|].
    split; [now left|auto].
  - destruct Hw as [Hwf Hm]. cbn. split; [|split; [|split]].
    + split; [now apply new_promise_wf|].
      cbn. destruct (execution_done (this w)); cbn in *; [exact I|lia].
    + split; [cbn; lia|]. split; [auto|]. split; [auto|now left].
    + now left.
    + intros Hone what p Hin Hun. exact (Hone what p Hin Hun).
  - cbn [invoke]. unfold bind.
    destruct (gated_execute_advances what (invoke inner) IHinner w Hw)
      as (Hw1 & Ha1 & Hs1 & Hone1 & _).
    destruct (gated_execute what (invoke inner) w) as [[] w1]; cbn in *.
    destruct (IHrest w1 Hw1) as (Hw2 & Ha2 & Hs2 & Hone2).
    split; [exact Hw2|]. split; [exact (advances_trans _ _ _ Ha1 Ha2)|].
    split; [exact (superseded_trans _ _ _ Hs1 Ha2 Hs2)|]. auto.
Qed.

(** A function that suspended is tracked until its I/O completes: giving
    the I/O promise its value runs the continuation that resolves
    [execution_done]. *)
Lemma suspended_execution_completes (what : string) (w : world) :
  world_wf w ->
  available
    (set_value (S (next_promise (rx w)))
       (rx (gated_execute what (invoke func_suspend) w).2))
    (execution_done (this (gated_execute what (invoke func_suspend) w).2))
  = true.
Proof.
  intros Hw.
  destruct (gated_execute_enter_spec w Hw)
    as (Hpr & [Hwf1 Hm1] & Hn1 & He1 & _).
  rewrite gated_execute_steps, Hpr.
  set (w1 := (gated_execute_enter w).2) in *.
  change (invoke func_suspend w1)
    with (get_future (next_promise (rx w1)),
          World (this w1) (new_promise (rx w1)).2).
  cbn [fst snd this rx]. rewrite Hn1.
  assert (Hwf2 : reactor_wf (new_promise (rx w1)).2)
    by now apply new_promise_wf.
  assert (Hun : available (new_promise (rx w1)).2
                  (get_future (S (next_promise (rx w)))) = false).
  { cbn. apply bool_decide_eq_false. intros Hin. apply Hwf1 in Hin. lia. }
  unfold seastar.finally_set_value. rewrite Hun.
  cbn [fst snd this rx execution_done set_gate]. rewrite He1.
  cbn [available]. apply bool_decide_eq_true.
  apply set_value_runs_continuation.
  - destruct Hwf2 as [Hr Hc]. split; cbn in *; [exact Hr|].
    intros c Hin. apply elem_of_cons in Hin as [->|Hin]; [cbn; lia|].
    now apply Hc.
  - cbn. lia.
  - cbn. left.
Qed.

End Gate.

(** The events keep the engine well formed and with one active driver. *)
Lemma step_one_active_driver (ev : event) (w : world) :
  world_wf w -> one_active_driver w ->
  world_wf (step ev w) /\ one_active_driver (step ev w).
Proof.
  intros Hw Hone. destruct ev as [what f|q]; cbn [step].
  - destruct (gated_execute_advances what (invoke f)
                (invoke_well_behaved f) w Hw) as (Hw' & _ & _ & Hone' & _).
    auto.
  - case_bool_decide as Hq; [|auto].
    destruct Hw as [Hwf Hm].
    destruct (set_value_resolves q (rx w) Hwf Hq) as (Hwf' & Hn & _ & Hr & _).
    split.
    + split; [exact Hwf'|]. cbn. unfold made in *.
      destruct (execution_done (this w)); [exact I|]. now rewrite Hn.
    + intros what p Hin Hun. cbn in Hin |- *.
      apply (Hone what p Hin).
      exact (unavailable_mono (rx w) _ (seastar.get_future p) Hr Hun).
Qed.

(** However the engine is driven from its construction on, and whichever
    I/O completes in between, at most one execution is active. *)
Lemma run_one_active_driver (evs : list event) (w : world) :
  world_wf w -> one_active_driver w ->
  world_wf (run evs w) /\ one_active_driver (run evs w).
Proof.
  revert w. induction evs as [|ev evs IH]; intros w Hw Hone; [auto|].
  cbn. destruct (step_one_active_driver ev w Hw Hone) as [Hw' Hone'].
  now apply IH.
Qed.

Lemma construct_one_active_driver (conn messenger io_handler : handle)
    (fa : option FrameAssemblerV2) (am : option AuthConnectionMeta) :
  world_wf (World (construct conn messenger io_handler fa am)
                  (seastar.Reactor ∅ [] 0%nat)) /\
  one_active_driver (World (construct conn messenger io_handler fa am)
                           (seastar.Reactor ∅ [] 0%nat)).
Proof.
  split.
  - split; [split; cbn; intros x Hx|exact I].
    + apply not_elem_of_empty in Hx. destruct Hx.
    + apply not_elem_of_nil in Hx. destruct Hx.
  - intros what p Hin _. cbn in Hin. apply not_elem_of_nil in Hin.
    destruct Hin.
Qed.

Section GatePromise.

Import seastar.

(** Giving a promise its value resolves that promise and the promises
    whose [set_value] waits in a continuation, and no other; it makes no
    promise and queues no continuation. *)
Lemma set_value_upto_only (n : nat) :
  forall (p : promise_id) (r : reactor),
    next_promise (set_value_upto n p r) = next_promise r /\
    continuations (set_value_upto n p r) = continuations r /\
    forall x, x ∈ resolved (set_value_upto n p r) ->
      x ∈ resolved r \/ x = p \/ exists c, c ∈ continuations r /\ c.2 = x.
Proof.
  induction n as [|n IH]; intros p r; cbn [set_value_upto].
  - split; [reflexivity|]. split; [reflexivity|]. cbn. intros x Hx.
    apply elem_of_union in Hx as [Hx|Hx]; [|now left].
    apply elem_of_singleton in Hx. right. now left.
  - apply (foldr_invariant _
             (fun r' => next_promise r' = next_promise r /\
                        continuations r' = continuations r /\
                        forall x, x ∈ resolved r' ->
                          x ∈ resolved r \/ x = p \/
                          exists c, c ∈ continuations r /\ c.2 = x)).
    + split; [reflexivity|]. split; [reflexivity|]. cbn. intros x Hx.
      apply elem_of_union in Hx as [Hx|Hx]; [|now left].
      apply elem_of_singleton in Hx. right. now left.
    + intros q r' Hq (Hn & Hk & Honly).
      destruct (IH q r') as (Hn' & Hk' & Honly').
      split; [congruence|]. split; [congruence|].
      intros x Hx. apply Honly' in Hx as [Hx|[->|(c & Hc & <-)]].
      * now apply Honly.
      * right. right. unfold waiters in Hq.
        apply list_elem_of_fmap in Hq as [c [-> Hin]].
        apply list_elem_of_filter in Hin as [_ Hin]. now exists c.
      * right. right. exists c. split; [congruence|reflexivity].
Qed.

(** A promise that is not resolved and that no continuation sets stays so
    when another promise is given its value behind a future. *)
Lemma finally_set_value_keeps (fut : future) (pr p0 : promise_id)
    (r : reactor) :
  pr <> p0 -> (p0 ∉ resolved r) ->
  (forall c, c ∈ continuations r -> c.2 <> p0) ->
  (p0 ∉ resolved (finally_set_value fut pr r).2) /\
  (forall c, c ∈ continuations (finally_set_value fut pr r).2 -> c.2 <> p0) /\
  next_promise (finally_set_value fut pr r).2 = next_promise r.
Proof.
  intros Hne Hun Hk.
  assert (Hset : (p0 ∉ resolved (set_value pr r)) /\
                 (forall c, c ∈ continuations (set_value pr r) -> c.2 <> p0) /\
                 next_promise (set_value pr r) = next_promise r).
  { unfold set_value.
    destruct (set_value_upto_only (length (continuations r)) pr r)
      as (Hn & Hk' & Honly).
    split; [|split; [now rewrite Hk'|exact Hn]].
    intros Hin. apply Honly in Hin as [Hin|[->|(c & Hc & Heq)]];
      [now apply Hun|now apply Hne|now apply (Hk c)]. }
  unfold finally_set_value. destruct fut as [|q]; [exact Hset|].
  destruct (available r (get_future q)); [exact Hset|].
  cbn. split; [exact Hun|]. split; [|reflexivity].
  intros c Hc. apply elem_of_cons in Hc as [->|Hc]; [exact Hne|now apply Hk].
Qed.

Lemma gated_execute_enter_rx (w : world) :
  (gated_execute_enter w).1 = next_promise (rx w) /\
  rx (gated_execute_enter w).2 = (new_promise (rx w)).2.
Proof.
  destruct (available (rx w) (execution_done (this w))) eqn:Hav;
    [rewrite (gated_execute_enter_ready w Hav)
    |rewrite (gated_execute_enter_unready w Hav)]; split; reflexivity.
Qed.

(** A function does not touch a promise made before it started that no
    continuation sets: the promise of the execution it runs in is resolved
    by the continuation of [gated_execute], not by the function. *)
Lemma invoke_keeps (f : Func) :
  forall (w : world) (p0 : promise_id),
    (p0 < next_promise (rx w))%nat ->
    (p0 ∉ resolved (rx w)) ->
    (forall c, c ∈ continuations (rx w) -> c.2 <> p0) ->
    (p0 < next_promise (rx (invoke f w).2))%nat /\
    (p0 ∉ resolved (rx (invoke f w).2)) /\
    (forall c, c ∈ continuations (rx (invoke f w).2) -> c.2 <> p0).
Proof.
  induction f as [| |what inner IHinner rest IHrest]; intros w p0 Hlt Hun Hk.
  - cbn. auto.
  - cbn. split; [lia|auto].
  - cbn [invoke]. unfold bind.
    destruct (gated_execute what (invoke inner) w) as [[] w3] eqn:Hge.
    assert (Hw3 : w3 = (gated_execute what (invoke inner) w).2)
      by now rewrite Hge.
    rewrite gated_execute_steps in Hw3.
    destruct (gated_execute_enter_rx w) as [Hpr Hrx].
    destruct (IHinner (gated_execute_enter w).2 p0) as (Hlt2 & Hun2 & Hk2).
    { rewrite Hrx. cbn. lia. }
    { now rewrite Hrx. }
    { now rewrite Hrx. }
    destruct (finally_set_value_keeps
                (invoke inner (gated_execute_enter w).2).1
                (gated_execute_enter w).1 p0
                (rx (invoke inner (gated_execute_enter w).2).2))
      as (Hun3 & Hk3 & Hn3); [rewrite Hpr; lia|exact Hun2|exact Hk2|].
    apply IHrest; rewrite Hw3; cbn [rx]; [rewrite Hn3|..]; assumption.
Qed.

(** The future a function returns is ready or is the future of a promise
    that has been made. *)
Lemma invoke_future_made (f : Func) :
  forall w : world, made (rx (invoke f w).2) (invoke f w).1.
Proof.
  induction f as [| |what inner _ rest IHrest]; intros w.
  - exact I.
  - cbn. lia.
  - cbn [invoke]. unfold bind.
    destruct (gated_execute what (invoke inner) w) as [[] w3]. apply IHrest.
Qed.

(** The promise that [gated_execute] makes for the function it runs
    follows the function.  The function is run on the engine that the
    first half of the lambda leaves; the engine it leaves is the one the
    caller gets back, with the gate tracking the execution under [what].
    When the future of the function is available as the function returns,
    the promise has its value by then; otherwise the promise is unresolved
    when [gated_execute] returns, a continuation behind the future of the
    function waits to set it, and it is resolved once that future is. *)
Lemma gated_execute_promise (what : string) (f : Func) (w : world) :
  world_wf w ->
  this (gated_execute what (invoke f) w).2
    = set_gate
        (BuildGated
           ((what,
             if available (rx (invoke f (gated_execute_enter w).2).2)
                  (invoke f (gated_execute_enter w).2).1
             then now else get_future (next_promise (rx w)))
            :: pending_dispatch
                 (gate (this (invoke f (gated_execute_enter w).2).2))))
        (this (invoke f (gated_execute_enter w).2).2) /\
  next_promise (rx (gated_execute what (invoke f) w).2)
    = next_promise (rx (invoke f (gated_execute_enter w).2).2) /\
  (available (rx (invoke f (gated_execute_enter w).2).2)
     (invoke f (gated_execute_enter w).2).1 = true ->
   available (rx (gated_execute what (invoke f) w).2)
     (get_future (next_promise (rx w))) = true) /\
  (forall q,
     (invoke f (gated_execute_enter w).2).1 = get_future q ->
     available (rx (invoke f (gated_execute_enter w).2).2)
       (get_future q) = false ->
     available (rx (gated_execute what (invoke f) w).2)
       (get_future (next_promise (rx w))) = false /\
     (q, next_promise (rx w))
       ∈ continuations (rx (gated_execute what (invoke f) w).2) /\
     available (set_value q (rx (gated_execute what (invoke f) w).2))
       (get_future (next_promise (rx w))) = true).
Proof.
  intros Hw.
  destruct (gated_execute_enter_spec w Hw)
    as (Hpr & Hw1 & Hn1 & He1 & _ & Hr1).
  destruct (gated_execute_enter_rx w) as [_ Hrx].
  rewrite gated_execute_steps, Hpr.
  set (w1 := (gated_execute_enter w).2) in *.
  destruct (invoke_well_behaved f w1 Hw1) as ([Hwf2 _] & (Hle2 & _) & _).
  pose proof (invoke_future_made f w1) as Hmade.
  assert (Hlt : (next_promise (rx w) < next_promise (rx (invoke f w1).2))%nat)
    by lia.
  destruct (invoke_keeps f w1 (next_promise (rx w))) as (_ & Hun2 & Hk2).
  { lia. }
  { rewrite Hr1. intros Hin. destruct Hw as [[Hres _] _].
    apply Hres in Hin. lia. }
  { rewrite Hrx. cbn. intros c Hc Heq. destruct Hw as [[_ Hcont] _].
    apply Hcont in Hc. apply Nat.lt_neq in Hc. exact (Hc Heq). }
  destruct (invoke f w1) as [fut w2]. cbn [fst snd this rx] in *.
  destruct (set_value_resolves (next_promise (rx w)) (rx w2) Hwf2 Hlt)
    as (_ & Hnset & _ & _ & Hinset).
  unfold finally_set_value.
  destruct fut as [|q].
  - cbn [available fst snd]. split; [reflexivity|]. split; [exact Hnset|].
    split; [intros _; now apply bool_decide_eq_true|].
    intros q Hq. discriminate Hq.
  - destruct (available (rx w2) (get_future q)) eqn:Hav; cbn [fst snd].
    + split; [reflexivity|]. split; [exact Hnset|].
      split; [intros _; now apply bool_decide_eq_true|].
      intros q' [= <-] Hq. congruence.
    + split; [reflexivity|]. split; [reflexivity|].
      split; [intros Hq; discriminate Hq|].
      intros q' [= <-] _. split; [now apply bool_decide_eq_false|].
      split; [cbn; left|].
      cbn [available]. apply bool_decide_eq_true.
      apply set_value_runs_continuation.
      * destruct Hwf2 as [Hr Hc]. split; cbn; [exact Hr|].
        intros c Hin. apply elem_of_cons in Hin as [->|Hin]; [exact Hlt|].
        now apply Hc.
      * exact Hmade.
      * cbn. left.
Qed.

End GatePromise.

(** C7: when [gated_execute] is called while [execution_done] is not yet
    resolved, the unready future is handed to the gate as
    "gated_execute_abandon" (kept, not dropped) and [execution_done] becomes
    the unresolved future of a new promise before the new function starts;
    when [gated_execute] returns, the gate still holds the abandoned future
    and everything it held before, it tracks the new execution under
    [what], [execution_done] is no longer the old future, and there still
    is at most one active execution.  The call returns even when the new
    function suspends: [execution_done] is then still unresolved.

    The new execution proceeds: the function is run on the engine so
    prepared, and the engine the caller gets back is the one the function
    left, with the new execution added to the gate and the promises the
    function made.  When the future of the function is available as the
    function returns, the new promise has been given its value; otherwise
    [gated_execute] returns all the same, the new promise is unresolved, a
    continuation behind the future of the function waits to set it, and it
    is set once that future is resolved. *)
Theorem gated_execute_supersedes (what : string) (f : Func) (w : world) :
  world_wf w ->
  seastar.available (rx w) (execution_done (this w)) = false ->
  ("gated_execute_abandon"%string, execution_done (this w))
    ∈ pending_dispatch (gate (this (gated_execute_enter w).2)) /\
  execution_done (this (gated_execute_enter w).2)
    = seastar.get_future (gated_execute_enter w).1 /\
  seastar.available (rx (gated_execute_enter w).2)
    (seastar.get_future (gated_execute_enter w).1) = false /\
  seastar.get_future (gated_execute_enter w).1 <> execution_done (this w) /\
  ("gated_execute_abandon"%string, execution_done (this w))
    ∈ pending_dispatch (gate (this (gated_execute what (invoke f) w).2)) /\
  (forall x, x ∈ pending_dispatch (gate (this w)) ->
     x ∈ pending_dispatch (gate (this (gated_execute what (invoke f) w).2))) /\
  (exists F, (what, F)
     ∈ pending_dispatch (gate (this (gated_execute what (invoke f) w).2))) /\
  execution_done (this (gated_execute what (invoke f) w).2)
    <> execution_done (this w) /\
  (one_active_driver w ->
   one_active_driver (gated_execute what (invoke f) w).2) /\
  (f = func_suspend ->
   execution_done (this (gated_execute what (invoke f) w).2)
     = seastar.get_future (gated_execute_enter w).1 /\
   seastar.available (rx (gated_execute what (invoke f) w).2)
     (execution_done (this (gated_execute what (invoke f) w).2)) = false) /\
  this (gated_execute what (invoke f) w).2
    = set_gate
        (BuildGated
           ((what,
             if seastar.available
                  (rx (invoke f (gated_execute_enter w).2).2)
                  (invoke f (gated_execute_enter w).2).1
             then seastar.now
             else seastar.get_future (gated_execute_enter w).1)
            :: pending_dispatch
                 (gate (this (invoke f (gated_execute_enter w).2).2))))
        (this (invoke f (gated_execute_enter w).2).2) /\
  seastar.next_promise (rx (gated_execute what (invoke f) w).2)
    = seastar.next_promise (rx (invoke f (gated_execute_enter w).2).2) /\
  (seastar.available (rx (invoke f (gated_execute_enter w).2).2)
     (invoke f (gated_execute_enter w).2).1 = true ->
   seastar.available (rx (gated_execute what (invoke f) w).2)
     (seastar.get_future (gated_execute_enter w).1) = true) /\
  (forall q,
     (invoke f (gated_execute_enter w).2).1 = seastar.get_future q ->
     seastar.available (rx (invoke f (gated_execute_enter w).2).2)
       (seastar.get_future q) = false ->
     seastar.available (rx (gated_execute what (invoke f) w).2)
       (seastar.get_future (gated_execute_enter w).1) = false /\
     (q, (gated_execute_enter w).1)
       ∈ seastar.continuations (rx (gated_execute what (invoke f) w).2) /\
     seastar.available
       (seastar.set_value q (rx (gated_execute what (invoke f) w).2))
       (seastar.get_future (gated_execute_enter w).1) = true).
Proof.
  intros Hw Hun.
  pose proof Hw as [Hwf Hmade].
  pose proof (gated_execute_promise what f w Hw) as Hruns.
  destruct (gated_execute_advances what (invoke f) (invoke_well_behaved f)
              w Hw) as (Hw' & (Hn' & Hg' & _) & _ & Hone' & p & Hp & Hle).
  assert (Hold : exists p0, execution_done (this w) = seastar.get_future p0 /\
                            (p0 < seastar.next_promise (rx w))%nat).
  { destruct (execution_done (this w)) as [|p0] eqn:E;
      [discriminate Hun | now exists p0]. }
  destruct Hold as (p0 & Hp0 & Hlt0).
  assert (Hin : ("gated_execute_abandon"%string, execution_done (this w))
      ∈ pending_dispatch (gate (this (gated_execute_enter w).2))).
  { rewrite (gated_execute_enter_unready w Hun). cbn. left. }
  destruct (gated_execute_enter_spec w Hw)
    as (Hpr & Hw1 & Hn1 & He1 & Hg1 & _).
  split; [exact Hin|].
  split; [now rewrite He1, Hpr|].
  split.
  { rewrite Hpr, (gated_execute_enter_unready w Hun). cbn.
    apply bool_decide_eq_false. intros Hres. apply Hwf in Hres. lia. }
  split; [rewrite Hpr, Hp0; intros [= Heq]; lia|].
  split.
  { rewrite gated_execute_steps. cbn. right.
    destruct (invoke_well_behaved f _ Hw1) as (_ & (_ & Hg2 & _) & _).
    apply Hg2, Hin. }
  split; [exact Hg'|].
  split; [rewrite gated_execute_steps; cbn; eexists; left|].
  split; [rewrite Hp, Hp0; intros [= Heq]; lia|].
  split; [exact Hone'|].
  split; [|rewrite Hpr; exact Hruns].
  intros ->. rewrite gated_execute_steps, Hpr.
  rewrite (gated_execute_enter_unready w Hun). cbn.
  match goal with
  | |- context [if @bool_decide ?P ?dec then _ else _] =>
      destruct (@bool_decide_reflect P dec) as [Hres|Hres]
  end; [apply Hwf in Hres; lia|]. cbn.
  split; [reflexivity|].
  apply bool_decide_eq_false. intros Hres'. apply Hwf in Hres'. lia.
Qed.

(** An engine whose execution, under promise [0], has not finished, is
    driven to a new state. *)
Lemma gated_execute_supersedes_witness :
  world_wf
    (World (set_execution_done (seastar.get_future 0%nat)
              (construct 1%nat 2%nat 3%nat (Some 4%nat) (Some 5%nat)))
           (seastar.Reactor ∅ [] 1%nat)) /\
  pending_dispatch
    (gate (this (gated_execute "execute_wait" (invoke func_suspend)
             (World (set_execution_done (seastar.get_future 0%nat)
                       (construct 1%nat 2%nat 3%nat (Some 4%nat) (Some 5%nat)))
                    (seastar.Reactor ∅ [] 1%nat))).2))
  = [("execute_wait"%string, seastar.get_future 1%nat);
     ("gated_execute_abandon"%string, seastar.get_future 0%nat)] /\
  execution_done
    (this (gated_execute "execute_wait" (invoke func_suspend)
             (World (set_execution_done (seastar.get_future 0%nat)
                       (construct 1%nat 2%nat 3%nat (Some 4%nat) (Some 5%nat)))
                    (seastar.Reactor ∅ [] 1%nat))).2)
  <> seastar.get_future 0%nat.
Proof.
  assert (Hw : world_wf
    (World (set_execution_done (seastar.get_future 0%nat)
              (construct 1%nat 2%nat 3%nat (Some 4%nat) (Some 5%nat)))
           (seastar.Reactor ∅ [] 1%nat))).
  { split; [split; cbn; intros x Hx|cbn; lia].
    - apply not_elem_of_empty in Hx. destruct Hx.
    - apply not_elem_of_nil in Hx. destruct Hx. }
  split; [exact Hw|]. split; [reflexivity|].
  apply (gated_execute_supersedes "execute_wait" func_suspend _ Hw).
  reflexivity.
Defined.

(** ** Closing *)

Lemma do_close_closed (c : bool) (e : t) :
  closed e = true -> do_close c e = (e, []).
Proof. intros H. unfold do_close. now rewrite H. Qed.

Lemma do_close_open (c : bool) (e : t) :
  closed e = false ->
  closed (do_close c e).1 = true /\
  state (do_close c e).1 = CLOSING /\
  frame_assembler (do_close c e).1 = None /\
  Timer.as_ (protocol_timer (do_close c e).1) = None /\
  filter is_release (do_close c e).2 = release_of (frame_assembler e).
Proof.
  intros H. unfold do_close. rewrite H.
  pose proof (cancel_as_none (protocol_timer e)) as Hc.
  destruct (Timer.cancel (protocol_timer e)) as [tm aborted]. cbn in *.
  repeat split; [exact Hc|].
  destruct (frame_assembler e), aborted; reflexivity.
Qed.

Lemma do_close_all_closed (calls : list bool) (e : t) :
  closed e = true -> do_close_all calls e = (e, []).
Proof.
  revert e. induction calls as [|c rest IH]; intros e H; cbn; [reflexivity|].
  now rewrite (do_close_closed c e H), (IH e H).
Qed.

Lemma do_close_all_first (c : bool) (rest : list bool) (e : t) :
  closed e = false -> do_close_all (c :: rest) e = do_close c e.
Proof.
  intros H. cbn [do_close_all].
  destruct (do_close_open c e H) as (Hcl & _).
  destruct (do_close c e) as [e1 eff1]. cbn in Hcl.
  rewrite (do_close_all_closed rest e1 Hcl). now rewrite app_nil_r.
Qed.

(** C5: [do_close] on an engine that has been closed changes nothing and
    asks nothing of the collaborators; any number of calls on an engine
    that holds a frame assembler ends where the first call ends, in
    [CLOSING], with that frame assembler released exactly once and none
    held any more. *)
Theorem do_close_idempotent (c : bool) (rest : list bool) (e : t)
    (fa : FrameAssemblerV2) :
  closed e = false ->
  frame_assembler e = Some fa ->
  (forall c' e', closed e' = true -> do_close c' e' = (e', [])) /\
  (forall c', do_close c' (do_close c e).1 = ((do_close c e).1, [])) /\
  (do_close_all (c :: rest) e).1 = (do_close c e).1 /\
  state (do_close_all (c :: rest) e).1 = CLOSING /\
  closed (do_close_all (c :: rest) e).1 = true /\
  frame_assembler (do_close_all (c :: rest) e).1 = None /\
  filter is_release (do_close_all (c :: rest) e).2
    = [release_frame_assembler fa].
Proof.
  intros Hopen Hfa.
  destruct (do_close_open c e Hopen) as (Hcl & Hst & Hnone & _ & Hrel).
  rewrite (do_close_all_first c rest e Hopen), Hrel, Hfa.
  split; [exact do_close_closed|].
  split; [intros c'; now apply do_close_closed|].
  repeat split; assumption.
Qed.

Lemma do_close_idempotent_witness :
  filter is_release
    (do_close_all [true; false; true]
       (set_state READY
          (construct 1%nat 2%nat 3%nat (Some 4%nat) (Some 5%nat)))).2
  = [release_frame_assembler 4%nat].
Proof.
  apply (do_close_idempotent true [false; true]
           (set_state READY
              (construct 1%nat 2%nat 3%nat (Some 4%nat) (Some 5%nat)))
           4%nat); reflexivity.
Defined.

(** ** Faults *)

(** C4: a fault whose expected state is not the state the engine is in
    leaves the engine, and with it the state, as it was. *)
Theorem fault_stale (abandon_unreachable : t -> bool)
    (fault_otherwise : fault_kind -> t -> t * list effect)
    (expected_state : state_t) (where_ : string) (eptr : fault_kind) (e : t) :
  state e <> expected_state ->
  fault abandon_unreachable fault_otherwise expected_state where_ eptr e
    = (e, []) /\
  state (fault abandon_unreachable fault_otherwise
           expected_state where_ eptr e).1 = state e.
Proof.
  intros Hstale. unfold fault.
  rewrite (bool_decide_eq_false_2 _ Hstale). now split.
Qed.

Lemma fault_stale_witness :
  state (fault (fun _ => false) (fun _ e => (e, []))
           CONNECTING "execute_connecting" transport_fault
           (set_state READY
              (construct 1%nat 2%nat 3%nat (Some 4%nat) (Some 5%nat)))).1
  = READY.
Proof.
  apply (fault_stale (fun _ => false) (fun _ e => (e, []))
           CONNECTING "execute_connecting" transport_fault
           (set_state READY
              (construct 1%nat 2%nat 3%nat (Some 4%nat) (Some 5%nat)))).
  discriminate.
Defined.

(** The same fault on an engine that still is in the expected state moves
    it to [WAIT]: the check of the expected state is what keeps a stale
    fault from doing so. *)
Lemma fault_current_transport (fault_otherwise : fault_kind -> t -> t * list effect)
    (where_ : string) (e : t) :
  state e = CONNECTING ->
  state (fault (fun _ => false) fault_otherwise
           CONNECTING where_ transport_fault e).1 = WAIT.
Proof.
  intros H. unfold fault. rewrite (bool_decide_eq_true_2 _ H), H. reflexivity.
Qed.

(** ** Reconnection *)

Section Reconnect.

Variable reconnect_ahead :
  gmap (Z * Z) t -> reconnect_frame -> reconnect_reply * gmap (Z * Z) t.

Lemma server_reconnect_accept (sessions : gmap (Z * Z) t)
    (rc : reconnect_frame) (existing : t) :
  sessions !! (rc_client_cookie rc, rc_server_cookie rc) = Some existing ->
  rc_connect_seq rc = connect_seq existing + 1 ->
  server_reconnect reconnect_ahead sessions rc =
    (reply_accept,
     <[(rc_client_cookie rc, rc_server_cookie rc) :=
         set_state REPLACING
           (set_connect_seq (connect_seq existing + 1) existing)]> sessions).
Proof.
  intros Hknown Hseq. unfold server_reconnect. rewrite Hknown. cbn zeta.
  now rewrite (proj2 (Z.eqb_eq _ _) Hseq).
Qed.

Lemma server_reconnect_retry (sessions : gmap (Z * Z) t)
    (rc : reconnect_frame) (existing : t) :
  sessions !! (rc_client_cookie rc, rc_server_cookie rc) = Some existing ->
  rc_connect_seq rc <= connect_seq existing ->
  server_reconnect reconnect_ahead sessions rc =
    (reply_retry (connect_seq existing), sessions).
Proof.
  intros Hknown Hseq. unfold server_reconnect. rewrite Hknown. cbn zeta.
  destruct (Z.eqb_spec (rc_connect_seq rc) (connect_seq existing + 1));
    [lia|].
  now rewrite (proj2 (Z.leb_le _ _) Hseq).
Qed.

(** C2: for a reconnection attempt of a known session, an incoming
    [connect_seq] of the stored value plus one is accepted and the stored
    value becomes exactly one more, the other sessions staying as they
    were; an incoming [connect_seq] of at most the stored value is answered
    with RETRY carrying the stored value, is not accepted, and changes no
    session. *)
Theorem server_reconnect_connect_seq (sessions : gmap (Z * Z) t)
    (rc : reconnect_frame) (existing : t) :
  sessions !! (rc_client_cookie rc, rc_server_cookie rc) = Some existing ->
  (rc_connect_seq rc = connect_seq existing + 1 ->
   (server_reconnect reconnect_ahead sessions rc).1 = reply_accept /\
   connect_seq <$> (server_reconnect reconnect_ahead sessions rc).2
                     !! (rc_client_cookie rc, rc_server_cookie rc)
     = Some (connect_seq existing + 1) /\
   forall k, k <> (rc_client_cookie rc, rc_server_cookie rc) ->
     (server_reconnect reconnect_ahead sessions rc).2 !! k = sessions !! k) /\
  (rc_connect_seq rc <= connect_seq existing ->
   (server_reconnect reconnect_ahead sessions rc).1
     = reply_retry (connect_seq existing) /\
   (server_reconnect reconnect_ahead sessions rc).1 <> reply_accept /\
   (server_reconnect reconnect_ahead sessions rc).2 = sessions).
Proof.
  intros Hknown. split; intros Hseq.
  - rewrite (server_reconnect_accept sessions rc existing Hknown Hseq). cbn.
    split; [reflexivity|]. split.
    + now rewrite lookup_insert_eq.
    + intros k Hk. now rewrite lookup_insert_ne.
  - rewrite (server_reconnect_retry sessions rc existing Hknown Hseq). cbn.
    split; [reflexivity|]. split; [discriminate|reflexivity].
Qed.

(** C3: a reconnection attempt whose cookies name no session known to the
    passive side is answered with a full RESET and changes no session; a
    client that receives RESET ends with its cookies and its auth context
    discarded and goes on with a fresh connection. *)
Theorem server_reconnect_unknown_cookies (sessions : gmap (Z * Z) t)
    (rc : reconnect_frame) :
  sessions !! (rc_client_cookie rc, rc_server_cookie rc) = None ->
  server_reconnect reconnect_ahead sessions rc = (reply_reset true, sessions) /\
  (server_reconnect reconnect_ahead sessions rc).1 <> reply_accept /\
  forall (full : bool) (client : t),
    client_cookie (client_reconnect_reply (reply_reset full) client).1.1 = 0 /\
    server_cookie (client_reconnect_reply (reply_reset full) client).1.1 = 0 /\
    auth_meta (client_reconnect_reply (reply_reset full) client).1.1 = None /\
    (client_reconnect_reply (reply_reset full) client).2 = do_client_connect.
Proof.
  intros Hunknown. unfold server_reconnect. rewrite Hunknown. cbn.
  split; [reflexivity|]. split; [discriminate|].
  intros [] client; repeat split.
Qed.

End Reconnect.

(** A server that knows the session [(7, 42)] at [connect_seq = 1]: the
    attempt with [connect_seq = 2] is accepted and the attempt with
    [connect_seq = 1] is answered with RETRY 1. *)
Lemma server_reconnect_connect_seq_witness :
  (server_reconnect (fun s _ => (reply_wait, s))
     {[ (7, 42) := set_connect_seq 1
                     (construct 1%nat 2%nat 3%nat (Some 4%nat) (Some 5%nat)) ]}
     (BuildReconnect 7 42 2)).1 = reply_accept /\
  (server_reconnect (fun s _ => (reply_wait, s))
     {[ (7, 42) := set_connect_seq 1
                     (construct 1%nat 2%nat 3%nat (Some 4%nat) (Some 5%nat)) ]}
     (BuildReconnect 7 42 1)).1 = reply_retry 1.
Proof.
  split.
  - apply (server_reconnect_connect_seq (fun s _ => (reply_wait, s))
             {[ (7, 42) := set_connect_seq 1
                  (construct 1%nat 2%nat 3%nat (Some 4%nat) (Some 5%nat)) ]}
             (BuildReconnect 7 42 2)
             (set_connect_seq 1
                (construct 1%nat 2%nat 3%nat (Some 4%nat) (Some 5%nat))));
      reflexivity.
  - apply (server_reconnect_connect_seq (fun s _ => (reply_wait, s))
             {[ (7, 42) := set_connect_seq 1
                  (construct 1%nat 2%nat 3%nat (Some 4%nat) (Some 5%nat)) ]}
             (BuildReconnect 7 42 1)
             (set_connect_seq 1
                (construct 1%nat 2%nat 3%nat (Some 4%nat) (Some 5%nat))));
      [reflexivity|cbn; lia].
Defined.

(** A server that has restarted knows no session. *)
Lemma server_reconnect_unknown_cookies_witness :
  server_reconnect (fun s _ => (reply_wait, s)) ∅ (BuildReconnect 7 42 2)
  = (reply_reset true, ∅).
Proof.
  apply (server_reconnect_unknown_cookies (fun s _ => (reply_wait, s))
           ∅ (BuildReconnect 7 42 2)).
  reflexivity.
Defined.

(** ** Further properties of the engine *)

(** X1: the names of the states are pairwise different: the name that
    [get_state_name] returns tells which state it was called with. *)
Theorem get_state_name_inj (s1 s2 : state_t) :
  get_state_name s1 = get_state_name s2 -> s1 = s2.
Proof.
  destruct s1, s2; intros H; try reflexivity; vm_compute in H;
    discriminate H.
Qed.

Lemma get_state_name_inj_witness :
  get_state_name STANDBY = Some "STANDBY"%string /\ STANDBY = STANDBY.
Proof.
  split; [reflexivity|].
  apply (get_state_name_inj STANDBY STANDBY). reflexivity.
Defined.

(** X2: [cancel()] on a timer that was just cancelled changes nothing and
    asks no abort source to abort; [cancel()] never changes the connection
    the timer refers to. *)
Theorem timer_cancel_again (tm : Timer.t) :
  Timer.cancel (Timer.cancel tm).1 = ((Timer.cancel tm).1, None) /\
  Timer.conn (Timer.cancel tm).1 = Timer.conn tm.
Proof. destruct tm as [d c [a|]]; split; reflexivity. Qed.

(** X3: the promise that [gated_execute] makes for the function it runs
    is resolved when [gated_execute] returns exactly when the future of
    the function is available by then; otherwise it is resolved once that
    future is.  When [gated_execute] returns, [execution_done] is the
    future of that promise or of a later one.  It is the future of that
    promise after a function that drives no further state: resolved after
    a function that returned without suspending, unresolved after a
    function that suspended on an I/O, and resolved once the I/O promise
    is given its value.  After a function that drives a further state it
    is the future of a later promise. *)
Theorem gated_execute_completion (what : string) (f : Func) (w : world) :
  world_wf w ->
  (seastar.available (rx (invoke f (gated_execute_enter w).2).2)
     (invoke f (gated_execute_enter w).2).1 = true ->
   seastar.available (rx (gated_execute what (invoke f) w).2)
     (seastar.get_future (seastar.next_promise (rx w))) = true) /\
  (forall q,
     (invoke f (gated_execute_enter w).2).1 = seastar.get_future q ->
     seastar.available (rx (invoke f (gated_execute_enter w).2).2)
       (seastar.get_future q) = false ->
     seastar.available (rx (gated_execute what (invoke f) w).2)
       (seastar.get_future (seastar.next_promise (rx w))) = false /\
     seastar.available
       (seastar.set_value q (rx (gated_execute what (invoke f) w).2))
       (seastar.get_future (seastar.next_promise (rx w))) = true) /\
  (exists p,
     execution_done (this (gated_execute what (invoke f) w).2)
       = seastar.get_future p /\
     (seastar.next_promise (rx w) <= p)%nat) /\
  (f = func_ready ->
   execution_done (this (gated_execute what (invoke f) w).2)
     = seastar.get_future (seastar.next_promise (rx w)) /\
   seastar.available (rx (gated_execute what (invoke f) w).2)
     (execution_done (this (gated_execute what (invoke f) w).2)) = true) /\
  (f = func_suspend ->
   execution_done (this (gated_execute what (invoke f) w).2)
     = seastar.get_future (seastar.next_promise (rx w)) /\
   seastar.available (rx (gated_execute what (invoke f) w).2)
     (execution_done (this (gated_execute what (invoke f) w).2)) = false /\
   seastar.available
     (seastar.set_value (S (seastar.next_promise (rx w)))
        (rx (gated_execute what (invoke f) w).2))
     (execution_done (this (gated_execute what (invoke f) w).2)) = true) /\
  (forall what' inner rest,
     f = func_drive what' inner rest ->
     exists p,
       execution_done (this (gated_execute what (invoke f) w).2)
         = seastar.get_future p /\
       (seastar.next_promise (rx w) < p)%nat).
Proof.
  intros Hw.
  destruct (gated_execute_promise what f w Hw) as (Hthis & _ & Hav & Hsus).
  destruct (gated_execute_enter_spec w Hw)
    as (Hpr & Hw1 & Hn1 & He1 & _ & Hr1).
  assert (Hdone : execution_done (this (gated_execute what (invoke f) w).2)
                  = execution_done (this (invoke f (gated_execute_enter w).2).2))
    by (rewrite Hthis; reflexivity).
  split; [exact Hav|].
  split.
  { intros q Hq Hun. destruct (Hsus q Hq Hun) as (Hno & _ & Hyes).
    split; assumption. }
  split.
  { destruct (gated_execute_advances what (invoke f) (invoke_well_behaved f)
                w Hw) as (_ & _ & _ & _ & Hp). exact Hp. }
  split.
  { intros ->. rewrite Hdone. cbn [invoke ret fst snd] in *.
    split; [exact He1|]. rewrite He1. now apply Hav. }
  split.
  { intros ->. rewrite Hdone.
    change (invoke func_suspend (gated_execute_enter w).2)
      with (seastar.get_future
              (seastar.next_promise (rx (gated_execute_enter w).2)),
            World (this (gated_execute_enter w).2)
                  (seastar.new_promise (rx (gated_execute_enter w).2)).2)
      in *.
    cbn [fst snd this rx] in *. rewrite Hn1 in Hsus.
    destruct (Hsus (S (seastar.next_promise (rx w))) eq_refl)
      as (Hno & _ & Hyes).
    { cbn. apply bool_decide_eq_false. intros Hin.
      destruct Hw1 as [[Hres _] _]. apply Hres in Hin. lia. }
    rewrite He1. split; [reflexivity|]. split; assumption. }
  intros what' inner rest ->. rewrite Hdone. cbn [invoke]. unfold bind.
  destruct (gated_execute_advances what' (invoke inner)
              (invoke_well_behaved inner) _ Hw1)
    as (Hwa & (Hna & _) & _ & _ & pa & Hpa & Hlea).
  destruct (gated_execute what' (invoke inner) (gated_execute_enter w).2)
    as [[] wa]. cbn [fst snd] in *.
  destruct (invoke_well_behaved rest wa Hwa)
    as (_ & (_ & _ & _ & [Heq|(p & Hp & Hle)]) & _).
  - exists pa. split; [congruence|lia].
  - exists p. split; [exact Hp|lia].
Qed.

(** An engine as constructed drives [execute_connecting], which suspends
    on its I/O. *)
Lemma gated_execute_completion_witness :
  world_wf (World (construct 1%nat 2%nat 3%nat None None)
                  (seastar.Reactor ∅ [] 0%nat)) /\
  seastar.available
    (rx (gated_execute "execute_connecting" (invoke func_suspend)
           (World (construct 1%nat 2%nat 3%nat None None)
                  (seastar.Reactor ∅ [] 0%nat))).2)
    (execution_done
       (this (gated_execute "execute_connecting" (invoke func_suspend)
                (World (construct 1%nat 2%nat 3%nat None None)
                       (seastar.Reactor ∅ [] 0%nat))).2))
  = false.
Proof.
  assert (Hw : world_wf (World (construct 1%nat 2%nat 3%nat None None)
                               (seastar.Reactor ∅ [] 0%nat)))
    by apply construct_one_active_driver.
  split; [exact Hw|].
  destruct (gated_execute_completion "execute_connecting" func_suspend _ Hw)
    as (_ & _ & _ & _ & Hsuspend & _).
  exact (proj1 (proj2 (Hsuspend eq_refl))).
Defined.

(** X4: an engine that is driven from its construction on, through
    [gated_execute] with functions that return, suspend or drive further
    states, and whose I/O completes at any time in between, has at most one
    active execution at every moment: whatever the gate holds unfinished is
    the execution that [execution_done] names, or was handed to the gate as
    abandoned. *)
Theorem constructed_one_active_driver (conn messenger io_handler : handle)
    (fa : option FrameAssemblerV2) (am : option AuthConnectionMeta)
    (evs : list event) :
  one_active_driver
    (run evs (World (construct conn messenger io_handler fa am)
                    (seastar.Reactor ∅ [] 0%nat))).
Proof.
  destruct (construct_one_active_driver conn messenger io_handler fa am)
    as [Hw Hone].
  exact (proj2 (run_one_active_driver evs _ Hw Hone)).
Qed.

(** ** The pubsub REST operations *)

(** * Properties of the pubsub code *)

Section Strings.

Import rgw.

Lemma append_cons (x : Ascii.ascii) (a b : string) :
  String x a +:+ b = String x (a +:+ b).
Proof. reflexivity. Qed.

Lemma append_nil_l (b : string) : "" +:+ b = b.
Proof. reflexivity. Qed.

Lemma append_assoc (a b c : string) : (a +:+ b) +:+ c = a +:+ (b +:+ c).
Proof.
  induction a as [|x a IH]; [reflexivity|].
  rewrite !append_cons. now f_equal.
Qed.

Lemma append_nil_r (a : string) : a +:+ "" = a.
Proof.
  induction a as [|x a IH]; [reflexivity|]. rewrite append_cons. now f_equal.
Qed.

Lemma append_length (a b : string) :
  String.length (a +:+ b) = (String.length a + String.length b)%nat.
Proof.
  induction a as [|x a IH]; [reflexivity|].
  rewrite append_cons. cbn. now f_equal.
Qed.

Lemma append_inv_l (a b c : string) : a +:+ b = a +:+ c -> b = c.
Proof.
  induction a as [|x a IH]; intros H; [exact H|].
  rewrite !append_cons in H. injection H as H. now apply IH.
Qed.

Lemma empty_true (s : string) : empty s = true <-> s = EmptyString.
Proof. destruct s; cbn; split; intros H; congruence. Qed.

Lemma empty_false (s : string) : empty s = false <-> s <> EmptyString.
Proof. destruct s; cbn; split; intros H; congruence. Qed.

Lemma pop_back_append (s : string) (c : Ascii.ascii) :
  pop_back (s +:+ String c "") = s.
Proof.
  induction s as [|x s IH]; [reflexivity|].
  rewrite append_cons. cbn [pop_back].
  destruct (s +:+ String c "") eqn:E.
  - destruct s; discriminate E.
  - now rewrite IH.
Qed.

Lemma substring_append_l (a b : string) :
  String.substring 0 (String.length a) (a +:+ b) = a.
Proof.
  induction a as [|x a IH]; [now destruct b|].
  rewrite append_cons. cbn. now f_equal.
Qed.

Lemma substring_all (s : string) : String.substring 0 (String.length s) s = s.
Proof. induction s as [|x s IH]; cbn; [reflexivity|now f_equal]. Qed.

Lemma substring_skip (a b : string) (n : nat) :
  String.substring (String.length a) n (a +:+ b) = String.substring 0 n b.
Proof.
  induction a as [|x a IH]; [reflexivity|]. rewrite append_cons. exact IH.
Qed.

(** A substring of full length lies inside the string. *)
Lemma substring_fits (s p : string) (m : nat) :
  String.substring m (String.length p) s = p ->
  p <> EmptyString -> (m + String.length p <= String.length s)%nat.
Proof.
  revert m p. induction s as [|x s IH]; intros m p H Hp.
  - destruct m, p; cbn in H; congruence.
  - destruct m as [|m].
    + destruct p as [|y p]; [congruence|]. cbn in H. injection H as _ H.
      cbn. destruct p as [|z p]; [cbn; lia|].
      specialize (IH 0%nat (String z p) H ltac:(discriminate)). cbn in *. lia.
    + cbn in H. specialize (IH m p H Hp). cbn. lia.
Qed.

Lemma find_app_found (a b : string) : find (a +:+ b) a <> None.
Proof.
  unfold find. destruct a as [|x a].
  - destruct b; cbn; discriminate.
  - intros Hnone.
    apply (String.index_correct3 0 0 (String x a) (String x a +:+ b) Hnone);
      [discriminate|lia|].
    apply substring_append_l.
Qed.

Lemma find_fits (s p : string) (m : nat) :
  find s p = Some m -> (m + String.length p <= String.length s)%nat.
Proof.
  unfold find. intros H.
  destruct p as [|x p].
  - destruct s; cbn in H.
    + injection H as <-. cbn. lia.
    + injection H as <-. cbn. lia.
  - apply String.index_correct1 in H.
    apply substring_fits; [exact H|discriminate].
Qed.

End Strings.

Section Topics.

Import rgw.

(** X5: [unique_to_topic] undoes [topic_to_unique]: the topic is recovered
    from its unique name, whatever the two names are. *)
Theorem unique_to_topic_to_unique (topic notification : string) :
  unique_to_topic (topic_to_unique topic notification) notification
  = Some topic.
Proof.
  unfold unique_to_topic, topic_to_unique.
  destruct (find ((notification +:+ "_") +:+ topic) (notification +:+ "_"))
    as [m|] eqn:Hfind; [|now apply find_app_found in Hfind].
  unfold substr.
  assert (Hlen : String.length (notification +:+ "_")
                 = (String.length notification + 1)%nat)
    by now rewrite append_length.
  rewrite append_length, Hlen.
  destruct (Nat.ltb_spec (String.length notification + 1 + String.length topic)
              (String.length notification + 1)) as [Hlt|_]; [lia|].
  f_equal. rewrite <- Hlen at 1. rewrite substring_skip.
  replace (String.length notification + 1 + String.length topic
           - (String.length notification + 1))%nat
    with (String.length topic) by lia.
  apply substring_all.
Qed.

(** X6: [unique_to_topic] never throws: when the notification's prefix is
    found, wherever it is found, the string is long enough for [substr];
    when it is not found the result is the empty string. *)
Theorem unique_to_topic_no_throw (unique_topic notification : string) :
  (exists topic, unique_to_topic unique_topic notification = Some topic) /\
  (find unique_topic (notification +:+ "_") = None ->
   unique_to_topic unique_topic notification = Some EmptyString).
Proof.
  unfold unique_to_topic.
  destruct (find unique_topic (notification +:+ "_")) as [m|] eqn:Hfind.
  - split; [|discriminate].
    apply find_fits in Hfind. rewrite append_length in Hfind. cbn in Hfind.
    unfold substr.
    destruct (Nat.ltb_spec (String.length unique_topic)
                (String.length notification + 1)) as [Hlt|_]; [lia|].
    eexists. reflexivity.
  - split; [now exists EmptyString|reflexivity].
Qed.

Lemma string_compare_refl (t : string) : String.compare t t = Eq.
Proof.
  pose proof (String.compare_antisym t t) as H.
  destruct (String.compare t t); [reflexivity|discriminate H|discriminate H].
Qed.

Lemma compare_zero (s t : string) : compare s t = 0 <-> s = t.
Proof.
  unfold compare. destruct (String.compare s t) eqn:E.
  - split; [intros _; now apply String.compare_eq_iff|reflexivity].
  - split; [discriminate|]. intros ->.
    rewrite string_compare_refl in E. discriminate E.
  - split; [discriminate|]. intros ->.
    rewrite string_compare_refl in E. discriminate E.
Qed.

(** X7: [rgw_pubsub_topic::operator<] holds exactly when the two topics
    have different [to_str()]: it is symmetric, and no topic is below
    itself. *)
Theorem topic_lt_differs (t1 t2 : rgw_pubsub_topic) :
  (topic_lt t1 t2 = true <-> to_str t1 <> to_str t2) /\
  topic_lt t1 t2 = topic_lt t2 t1 /\
  topic_lt t1 t1 = false.
Proof.
  assert (Hiff : forall a b, topic_lt a b = true <-> to_str a <> to_str b).
  { intros a b. unfold topic_lt, to_bool.
    rewrite negb_true_iff, Z.eqb_neq. now rewrite compare_zero. }
  split; [apply Hiff|]. split.
  - destruct (topic_lt t1 t2) eqn:E1, (topic_lt t2 t1) eqn:E2;
      try reflexivity.
    + apply Hiff in E1. apply not_true_iff_false in E2.
      exfalso. apply E2, Hiff. congruence.
    + apply Hiff in E2. apply not_true_iff_false in E1.
      exfalso. apply E1, Hiff. congruence.
  - apply not_true_iff_false. intros H. now apply Hiff in H.
Qed.

Lemma find_slash_cons (c : Ascii.ascii) (s : string) :
  find (String c s) "/" = None -> String c "" <> "/"%string /\ find s "/" = None.
Proof.
  unfold find. cbn [String.index String.prefix].
  match goal with
  | |- context [Ascii.ascii_dec ?a c] =>
      destruct (Ascii.ascii_dec a c) as [<-|Hc]
  end.
  - destruct s; discriminate.
  - destruct (String.index 0 "/" s); [discriminate|].
    intros _. split; [congruence|reflexivity].
Qed.

(** Two strings without a slash, each followed by a slash and a rest, make
    the same string only if they and the rests are the same. *)
Lemma slash_split (a b n m : string) :
  find a "/" = None -> find b "/" = None ->
  (a +:+ "/") +:+ n = (b +:+ "/") +:+ m -> a = b /\ n = m.
Proof.
  revert b. induction a as [|x a IH]; intros [|y b] Ha Hb H.
  - split; [reflexivity|]. now injection H.
  - apply find_slash_cons in Hb as [Hy _].
    rewrite !append_cons in H. cbn in H. injection H as Hxy _. congruence.
  - apply find_slash_cons in Ha as [Hx _].
    rewrite !append_cons in H. cbn in H. injection H as Hxy _. congruence.
  - apply find_slash_cons in Ha as [_ Ha].
    apply find_slash_cons in Hb as [_ Hb].
    rewrite !append_cons in H. injection H as -> H.
    destruct (IH b Ha Hb H) as [-> ->]. now split.
Qed.

(** X8: topics of tenants whose names hold no slash have the same
    [to_str()] only if they have the same tenant and the same name. *)
Theorem to_str_inj (t1 t2 : rgw_pubsub_topic) :
  find (tenant (user t1)) "/" = None ->
  find (tenant (user t2)) "/" = None ->
  to_str t1 = to_str t2 ->
  tenant (user t1) = tenant (user t2) /\ name t1 = name t2.
Proof. intros H1 H2 H. exact (slash_split _ _ _ _ H1 H2 H). Qed.

Lemma to_str_inj_witness :
  tenant (user (BuildTopic (BuildUser "t" "u") "a/b" rgw_pubsub_dest_default
                  "" ""))
  = tenant (user (BuildTopic (BuildUser "t" "v") "a/b"
                    rgw_pubsub_dest_default "arn" "")) /\
  name (BuildTopic (BuildUser "t" "u") "a/b" rgw_pubsub_dest_default "" "")
  = name (BuildTopic (BuildUser "t" "v") "a/b" rgw_pubsub_dest_default
            "arn" "").
Proof. apply to_str_inj; reflexivity. Defined.

(** X9: within a tenant, buckets whose names hold no slash have the same
    metadata object only if they have the same name and marker, and the
    object of a bucket is never the tenant's own topics object. *)
Theorem bucket_meta_oid_inj (tenant : string) (b1 b2 : rgw_bucket) :
  find (bucket_name b1) "/" = None ->
  find (bucket_name b2) "/" = None ->
  (bucket_meta_oid tenant b1 = bucket_meta_oid tenant b2 -> b1 = b2) /\
  bucket_meta_oid tenant b1 <> meta_oid tenant.
Proof.
  intros H1 H2. split.
  - unfold bucket_meta_oid. intros H.
    rewrite !append_assoc in H.
    do 3 apply append_inv_l in H. rewrite <- !append_assoc in H.
    destruct (slash_split _ _ _ _ H1 H2 H) as [Hn Hm].
    destruct b1, b2; cbn in *; congruence.
  - unfold bucket_meta_oid, meta_oid. intros H.
    apply (f_equal String.length) in H.
    rewrite !append_length in H. cbn in H. lia.
Qed.

Lemma bucket_meta_oid_inj_witness :
  bucket_meta_oid "t" (BuildBucket "photos" "m1") <> meta_oid "t".
Proof.
  apply (bucket_meta_oid_inj "t" (BuildBucket "photos" "m1")
           (BuildBucket "photos" "m1")); reflexivity.
Defined.

End Topics.

Section Rest.

Import rgw.

Lemma verify_transport_security_spec (env : RGWEnv) :
  verify_transport_security env
  = rgw_transport_is_secure env
    || rgw_allow_notification_secrets_in_cleartext env.
Proof. destruct env as [[] []]; reflexivity. Qed.

(** X10: [validate_and_update_endpoint_secret] accepts an endpoint whose
    URL carries a user and a password only when the transport is secure or
    the configuration allows secrets in cleartext, and it then marks the
    destination as storing a secret. *)
Theorem validate_secret_needs_transport
    (parse_url_userinfo : string -> option (string * string))
    (d d' : rgw_pubsub_dest) (env : RGWEnv) (user password : string) :
  validate_and_update_endpoint_secret parse_url_userinfo d env
    = Some (true, d') ->
  push_endpoint d <> EmptyString ->
  parse_url_userinfo (push_endpoint d) = Some (user, password) ->
  user <> EmptyString ->
  (rgw_transport_is_secure env = true \/
   rgw_allow_notification_secrets_in_cleartext env = true) /\
  stored_secret d' = true.
Proof.
  unfold validate_and_update_endpoint_secret.
  intros H Hne Hparse Huser.
  apply empty_false in Hne. apply empty_false in Huser.
  rewrite Hne, Hparse, Huser in H.
  destruct (empty password); cbn in H; [discriminate H|].
  destruct (verify_transport_security env) eqn:Hv; cbn in H;
    [|discriminate H].
  injection H as <-. split; [|reflexivity].
  rewrite verify_transport_security_spec in Hv.
  now apply orb_true_iff in Hv.
Qed.

Lemma validate_secret_needs_transport_witness :
  (rgw_transport_is_secure (BuildEnv false true) = true \/
   rgw_allow_notification_secrets_in_cleartext (BuildEnv false true) = true)
  /\
  stored_secret
    (set_stored_secret true
       (BuildDest "amqp://u:p@host" "" "" false false)) = true.
Proof.
  apply (validate_secret_needs_transport
           (fun _ => Some ("u"%string, "p"%string))
           (BuildDest "amqp://u:p@host" "" "" false false)
           (set_stored_secret true
              (BuildDest "amqp://u:p@host" "" "" false false))
           (BuildEnv false true) "u" "p");
    [reflexivity|discriminate|reflexivity|discriminate].
Defined.

(** X11: whatever [validate_and_update_endpoint_secret] returns, it leaves
    the destination as it was apart from [stored_secret], which it never
    clears; an empty endpoint is accepted without a look at the URL; and
    an endpoint with a user and a password that is rejected for an insecure
    transport is left marked as storing a secret. *)
Theorem validate_keeps_dest
    (parse_url_userinfo : string -> option (string * string))
    (d : rgw_pubsub_dest) (env : RGWEnv) :
  (forall b d',
     validate_and_update_endpoint_secret parse_url_userinfo d env
       = Some (b, d') ->
     d' = d \/ d' = set_stored_secret true d) /\
  (push_endpoint d = EmptyString ->
   validate_and_update_endpoint_secret parse_url_userinfo d env
     = Some (true, d)) /\
  (forall user password,
     push_endpoint d <> EmptyString ->
     parse_url_userinfo (push_endpoint d) = Some (user, password) ->
     user <> EmptyString -> password <> EmptyString ->
     verify_transport_security env = false ->
     validate_and_update_endpoint_secret parse_url_userinfo d env
       = Some (false, set_stored_secret true d)).
Proof.
  unfold validate_and_update_endpoint_secret. split; [|split].
  - intros b d' H.
    destruct (empty (push_endpoint d)); [injection H as _ <-; now left|].
    destruct (parse_url_userinfo (push_endpoint d)) as [[u p]|];
      [|injection H as _ <-; now left].
    destruct (negb (Bool.eqb (empty u) (empty p))); [discriminate H|].
    destruct (negb (empty u)); [|injection H as _ <-; now left].
    destruct (negb (verify_transport_security env));
      injection H as _ <-; now right.
  - intros ->. reflexivity.
  - intros u p Hne Hparse Hu Hp Hv.
    apply empty_false in Hne, Hu, Hp. now rewrite Hne, Hparse, Hu, Hp, Hv.
Qed.

Lemma topics_has_endpoint_secret_spec (topics : rgw_pubsub_topics) :
  topics_has_endpoint_secret topics = true <->
  exists t, t ∈ topics /\ stored_secret (dest t.2) = true.
Proof.
  induction topics as [|t rest IH]; cbn.
  - split; [discriminate|]. intros (t & Hin & _). inversion Hin.
  - unfold topic_has_endpoint_secret.
    destruct (stored_secret (dest t.2)) eqn:E.
    + split; [|reflexivity]. intros _. exists t. split; [left|exact E].
    + rewrite IH. split; intros (x & Hin & Hx).
      * exists x. split; [now right|exact Hx].
      * apply elem_of_cons in Hin as [->|Hin]; [congruence|].
        exists x. now split.
Qed.

Lemma op_generators_find_elem (action_name : string) (o : topic_op)
    (m : list (string * topic_op)) :
  op_generators_find action_name m = Some o -> (action_name, o) ∈ m.
Proof.
  induction m as [|[k v] m IH]; cbn; [discriminate|].
  destruct (String.eqb_spec k action_name) as [->|_].
  - intros [= ->]. left.
  - intros H. right. now apply IH.
Qed.

Lemma op_generators_find_spec (action_name : string) (o : topic_op) :
  op_generators_find action_name op_generators = Some o <->
  (action_name, o) ∈ op_generators.
Proof.
  split; [apply op_generators_find_elem|].
  unfold op_generators. intros H.
  repeat (apply elem_of_cons in H as [H|H];
          [injection H as -> ->; reflexivity|]).
  inversion H.
Qed.

(** X12: [op_post] returns an operation exactly when [action_exists] holds
    for the request, the operation it returns is the one that
    [op_generators] has under the request's [Action], and it sets the
    dialect and the protocol flags whether or not it finds one. *)
Theorem op_post_action_exists (RGW_REST_STS : Z) (s : req_state) :
  (action_exists s = true <-> is_Some (op_post RGW_REST_STS s).2) /\
  (forall o, (op_post RGW_REST_STS s).2 = Some o ->
     exists action_name,
       args_lookup "Action" (args s) = Some action_name /\
       (action_name, o) ∈ op_generators) /\
  dialect (op_post RGW_REST_STS s).1 = "sns"%string /\
  prot_flags (op_post RGW_REST_STS s).1 = RGW_REST_STS /\
  args (op_post RGW_REST_STS s).1 = args s.
Proof.
  unfold action_exists, op_post, args_exists, args_get. cbn [args].
  destruct (args_lookup "Action" (args s)) as [a|];
    cbn [fst snd args dialect prot_flags].
  - split; [|split; [|auto]].
    + destruct (op_generators_find a op_generators) as [o|].
      * split; [now exists o|reflexivity].
      * split; [discriminate|intros [o H]; discriminate H].
    + intros o Ho. exists a. split; [reflexivity|].
      now apply op_generators_find_spec.
  - split; [|split; [|auto]].
    + split; [discriminate|intros [o H]; discriminate H].
    + intros o H. discriminate H.
Qed.

(** X13: [find_unique_topic] gives the first topic of the bucket, in the
    order of the keys, whose [s3_id] is the notification's name, and
    nothing exactly when no topic of the bucket has that [s3_id]. *)
Theorem find_unique_topic_first (bucket_topics : rgw_pubsub_bucket_topics)
    (notif_name : string) :
  (forall f, find_unique_topic bucket_topics notif_name = Some f <->
     exists before key after,
       bucket_topics = before ++ (key, f) :: after /\
       s3_id f = notif_name /\
       forall t, t ∈ before -> s3_id t.2 <> notif_name) /\
  (find_unique_topic bucket_topics notif_name = None <->
   forall t, t ∈ bucket_topics -> s3_id t.2 <> notif_name).
Proof.
  induction bucket_topics as [|[k v] rest [IHsome IHnone]]; cbn.
  - split.
    + intros f. split; [discriminate|].
      intros (before & key & after & H & _). now destruct before.
    + split; [|reflexivity]. intros _ t Ht. inversion Ht.
  - destruct (String.eqb_spec notif_name (s3_id v)) as [Heq|Hne].
    + split.
      * intros f. split.
        -- intros [= <-]. exists [], k, rest. repeat split; [now symmetry|].
           intros t Ht. inversion Ht.
        -- intros (before & key & after & H & Hid & Hbefore).
           destruct before as [|b before].
           ++ injection H as _ <- _. reflexivity.
           ++ injection H as <- _. exfalso.
              apply (Hbefore (k, v)); [left|now symmetry].
      * split; [discriminate|]. intros H. exfalso.
        apply (H (k, v)); [left|now symmetry].
    + split.
      * intros f. rewrite IHsome. split.
        -- intros (before & key & after & -> & Hid & Hbefore).
           exists ((k, v) :: before), key, after.
           repeat split; [exact Hid|].
           intros t Ht. apply elem_of_cons in Ht as [->|Ht]; [|auto].
           cbn. congruence.
        -- intros (before & key & after & H & Hid & Hbefore).
           destruct before as [|b before].
           ++ injection H as <- <- _. congruence.
           ++ injection H as <- ->. exists before, key, after.
              repeat split; [exact Hid|].
              intros t Ht. apply Hbefore. now right.
      * rewrite IHnone. split.
        -- intros H t Ht. apply elem_of_cons in Ht as [->|Ht]; [|auto].
           cbn. congruence.
        -- intros H t Ht. apply H. now right.
Qed.

End Rest.

Section Store.

Import rgw.

(** The calls that remove one topic of a bucket. *)
Lemma remove_notification_by_topic_calls (st : store) (topic_name : string)
    (h : list call) :
  remove_notification_by_topic st topic_name h =
    (returns st (h ++ [b_remove_notification topic_name])
       (ps_remove_topic topic_name),
     h ++ [b_remove_notification topic_name; ps_remove_topic topic_name]).
Proof.
  unfold remove_notification_by_topic, ext_bind, do_call, ext_ret.
  now rewrite <- app_assoc.
Qed.

(** X14: [delete_all_notifications] removes the topics in the order of
    the keys, two calls for each, and stops behind the first whose
    [remove_topic] fails: the result is that failure and no call is made
    for a later topic.  When no [remove_topic] fails it returns zero and
    every topic has been removed.  It returns zero or a negative error in
    every case. *)
Theorem delete_all_notifications_calls (st : store)
    (bucket_topics : rgw_pubsub_bucket_topics) (h : list call) :
  (forall before t after,
     bucket_topics = before ++ t :: after ->
     (forall pre x post,
        before = pre ++ x :: post ->
        0 <= returns st
               (h ++ flat_map (fun t => [b_remove_notification t.1;
                                         ps_remove_topic t.1]) pre
                  ++ [b_remove_notification x.1])
               (ps_remove_topic x.1)) ->
     returns st
       (h ++ flat_map (fun t => [b_remove_notification t.1;
                                 ps_remove_topic t.1]) before
          ++ [b_remove_notification t.1])
       (ps_remove_topic t.1) < 0 ->
     delete_all_notifications st bucket_topics h
     = (returns st
          (h ++ flat_map (fun t => [b_remove_notification t.1;
                                    ps_remove_topic t.1]) before
             ++ [b_remove_notification t.1])
          (ps_remove_topic t.1),
        h ++ flat_map (fun t => [b_remove_notification t.1;
                                 ps_remove_topic t.1]) before
          ++ [b_remove_notification t.1; ps_remove_topic t.1])) /\
  ((forall pre x post,
      bucket_topics = pre ++ x :: post ->
      0 <= returns st
             (h ++ flat_map (fun t => [b_remove_notification t.1;
                                       ps_remove_topic t.1]) pre
                ++ [b_remove_notification x.1])
             (ps_remove_topic x.1)) ->
   delete_all_notifications st bucket_topics h
   = (0, h ++ flat_map (fun t => [b_remove_notification t.1;
                                  ps_remove_topic t.1]) bucket_topics)) /\
  (delete_all_notifications st bucket_topics h).1 <= 0 /\
  ((delete_all_notifications st bucket_topics h).1 = 0 ->
   (delete_all_notifications st bucket_topics h).2 =
     h ++ flat_map (fun t => [b_remove_notification t.1; ps_remove_topic t.1])
            bucket_topics).
Proof.
  revert h. induction bucket_topics as [|t0 rest IH]; intros h.
  - split; [|split; [|split]].
    + intros before t after Heq. destruct before; discriminate Heq.
    + intros _. cbn. now rewrite app_nil_r.
    + cbn. lia.
    + intros _. cbn. now rewrite app_nil_r.
  - cbn [delete_all_notifications]. unfold ext_bind.
    rewrite remove_notification_by_topic_calls.
    destruct (IH (h ++ [b_remove_notification t0.1; ps_remove_topic t0.1]))
      as (IHfail & IHall & IHle & IHzero).
    split; [|split; [|split]].
    + intros [|x before] t after Heq Hbefore Hfail.
      * injection Heq as <- <-. cbn [flat_map app] in *.
        destruct (Z.ltb_spec
                    (returns st (h ++ [b_remove_notification t0.1])
                       (ps_remove_topic t0.1)) 0); [reflexivity|lia].
      * injection Heq as <- ->.
        pose proof (Hbefore [] t0 before eq_refl) as Hfirst.
        cbn [flat_map app] in Hfirst.
        destruct (Z.ltb_spec
                    (returns st (h ++ [b_remove_notification t0.1])
                       (ps_remove_topic t0.1)) 0); [lia|].
        cbn [flat_map] in *. rewrite <- !app_assoc in *.
        cbn [app] in *.
        rewrite (IHfail before t after eq_refl).
        -- now rewrite <- !app_assoc.
        -- intros pre x post ->.
           specialize (Hbefore (t0 :: pre) x post eq_refl).
           cbn [flat_map] in Hbefore. rewrite <- !app_assoc in *.
           exact Hbefore.
        -- rewrite <- !app_assoc. exact Hfail.
    + intros Hall.
      pose proof (Hall [] t0 rest eq_refl) as Hfirst.
      cbn [flat_map app] in Hfirst.
      destruct (Z.ltb_spec
                  (returns st (h ++ [b_remove_notification t0.1])
                     (ps_remove_topic t0.1)) 0); [lia|].
      rewrite IHall.
      * cbn [flat_map]. now rewrite <- !app_assoc.
      * intros pre x post ->.
        specialize (Hall (t0 :: pre) x post eq_refl).
        cbn [flat_map] in Hall. rewrite <- !app_assoc in *. exact Hall.
    + destruct (Z.ltb_spec
                  (returns st (h ++ [b_remove_notification t0.1])
                     (ps_remove_topic t0.1)) 0); [cbn; lia|exact IHle].
    + destruct (Z.ltb_spec
                  (returns st (h ++ [b_remove_notification t0.1])
                     (ps_remove_topic t0.1)) 0); [cbn; lia|].
      intros Hz. rewrite (IHzero Hz). cbn [flat_map].
      now rewrite <- !app_assoc.
Qed.

(** Three notifications of a bucket; the topic of the second cannot be
    removed. *)
Lemma delete_all_notifications_calls_witness :
  let st :=
    BuildStore
      (fun _ c => match c with
                  | ps_remove_topic "n2_b" => - EPERM
                  | _ => 0
                  end)
      (fun _ => []) (fun _ _ => BuildTopic (BuildUser "" "") ""
                                  rgw_pubsub_dest_default "" "")
      (fun _ => []) in
  let notif := fun n : string =>
    (n, BuildTopicFilter
          (BuildTopic (BuildUser "" "") n rgw_pubsub_dest_default "" "")
          [] "n"
          (BuildFilter (BuildKeyFilter "" "" "") (BuildKeyValueFilter [])
             (BuildKeyValueFilter []))) in
  delete_all_notifications st [notif "n1_a"; notif "n2_b"; notif "n3_c"] []
  = (- EPERM,
     [b_remove_notification "n1_a"; ps_remove_topic "n1_a";
      b_remove_notification "n2_b"; ps_remove_topic "n2_b"]).
Proof.
  intros st notif.
  refine (proj1 (delete_all_notifications_calls st
                   [notif "n1_a"; notif "n2_b"; notif "n3_c"] [])
            [notif "n1_a"] (notif "n2_b") [notif "n3_c"] eq_refl _ _).
  - intros [|a [|b pre]] x post Heq; [|discriminate Heq..].
    injection Heq as <- _. cbn. lia.
  - reflexivity.
Defined.

(** X15: a failure of [remove_notification] is not reported:
    [delete_all_notifications] returns zero whenever every [remove_topic]
    succeeds, whatever [remove_notification] returns. *)
Theorem delete_all_notifications_ignores_remove_notification (st : store)
    (bucket_topics : rgw_pubsub_bucket_topics) (h : list call) :
  (forall h' topic_name, 0 <= returns st h' (ps_remove_topic topic_name)) ->
  (delete_all_notifications st bucket_topics h).1 = 0.
Proof.
  intros Hok. revert h. induction bucket_topics as [|t rest IH]; intros h.
  - reflexivity.
  - cbn [delete_all_notifications]. unfold ext_bind.
    rewrite remove_notification_by_topic_calls.
    destruct (Z.ltb_spec
                (returns st (h ++ [b_remove_notification t.1])
                   (ps_remove_topic t.1)) 0) as [Hneg|_].
    + specialize (Hok (h ++ [b_remove_notification t.1]) t.1). lia.
    + apply IH.
Qed.

Lemma delete_all_notifications_ignores_remove_notification_witness :
  (delete_all_notifications
     (BuildStore
        (fun _ c => match c with
                    | b_remove_notification _ => - ENOENT
                    | _ => 0
                    end)
        (fun _ => []) (fun _ _ => BuildTopic (BuildUser "" "") ""
                                    rgw_pubsub_dest_default "" "")
        (fun _ => []))
     [("n1_t"%string,
       BuildTopicFilter
         (BuildTopic (BuildUser "" "") "n1_t" rgw_pubsub_dest_default "" "")
         [] "n1"
         (BuildFilter (BuildKeyFilter "" "" "") (BuildKeyValueFilter [])
            (BuildKeyValueFilter [])))]
     []).1 = 0.
Proof.
  apply delete_all_notifications_ignores_remove_notification.
  intros h' topic_name. cbn. lia.
Defined.

Lemma find_unique_topic_elem (bucket_topics : rgw_pubsub_bucket_topics)
    (notif_name : string) (f : rgw_pubsub_topic_filter) :
  find_unique_topic bucket_topics notif_name = Some f ->
  s3_id f = notif_name /\ exists t, t ∈ bucket_topics /\ t.2 = f.
Proof.
  induction bucket_topics as [|t rest IH]; cbn; [discriminate|].
  destruct (String.eqb_spec notif_name (s3_id t.2)) as [Heq|_].
  - intros [= <-]. split; [now symmetry|]. exists t. split; [left|reflexivity].
  - intros H. destruct (IH H) as (Hid & x & Hin & Hx).
    split; [exact Hid|]. exists x. split; [now right|exact Hx].
Qed.

Lemma find_unique_topic_none (bucket_topics : rgw_pubsub_bucket_topics)
    (notif_name : string) :
  find_unique_topic bucket_topics notif_name = None <->
  forall t, t ∈ bucket_topics -> s3_id t.2 <> notif_name.
Proof.
  induction bucket_topics as [|t rest IH]; cbn.
  - split; [|reflexivity]. intros _ x Hx. inversion Hx.
  - destruct (String.eqb_spec notif_name (s3_id t.2)) as [Heq|Hne].
    + split; [discriminate|]. intros H. exfalso.
      apply (H t); [left|now symmetry].
    + rewrite IH. split.
      * intros H x Hx. apply elem_of_cons in Hx as [->|Hx]; [congruence|auto].
      * intros H x Hx. apply H. now right.
Qed.

Lemma delete_all_notifications_within (st : store)
    (bucket_topics : rgw_pubsub_bucket_topics) (h : list call) :
  exists new,
    (delete_all_notifications st bucket_topics h).2 = h ++ new /\
    forall c, c ∈ new ->
      exists t, t ∈ bucket_topics /\
        (c = b_remove_notification t.1 \/ c = ps_remove_topic t.1).
Proof.
  revert h. induction bucket_topics as [|t rest IH]; intros h.
  - exists []. cbn. split; [now rewrite app_nil_r|]. intros c Hc. inversion Hc.
  - cbn [delete_all_notifications]. unfold ext_bind.
    rewrite remove_notification_by_topic_calls.
    assert (Hfirst : forall c,
              c ∈ [b_remove_notification t.1; ps_remove_topic t.1] ->
              exists x, x ∈ t :: rest /\
                (c = b_remove_notification x.1 \/ c = ps_remove_topic x.1)).
    { intros c Hc. exists t. split; [left|].
      apply elem_of_cons in Hc as [->|Hc]; [now left|].
      apply elem_of_cons in Hc as [->|Hc]; [now right|inversion Hc]. }
    destruct (returns st (h ++ [b_remove_notification t.1])
                (ps_remove_topic t.1) <? 0).
    + eexists. split; [reflexivity|exact Hfirst].
    + destruct (IH (h ++ [b_remove_notification t.1; ps_remove_topic t.1]))
        as (new & Hnew & Hin).
      exists ([b_remove_notification t.1; ps_remove_topic t.1] ++ new).
      split; [now rewrite Hnew, app_assoc|].
      intros c Hc. apply elem_of_app in Hc as [Hc|Hc]; [auto|].
      destruct (Hin c Hc) as (x & Hx & Hcx). exists x. split; [now right|auto].
Qed.

(** X16: [RGWPSDeleteNotifOp::execute] calls the store only to read the
    topics of the bucket and to remove topics that it read there; without
    the parameter [notification] or without a bucket name it fails with
    [-EINVAL] and calls nothing; and for a named notification that is not
    on the bucket it removes nothing and returns what reading the topics
    returned. *)
Theorem delete_notif_execute_calls (st : store) (s_args : RGWHTTPArgs)
    (s_bucket_name : string) (h : list call) :
  (args_lookup "notification" s_args = None \/ s_bucket_name = EmptyString ->
   delete_notif_execute st s_args s_bucket_name h = (- EINVAL, h)) /\
  (exists new,
     (delete_notif_execute st s_args s_bucket_name h).2 = h ++ new /\
     forall c, c ∈ new ->
       c = b_get_topics \/
       exists t, t ∈ read_bucket_topics st h /\
         (c = b_remove_notification t.1 \/ c = ps_remove_topic t.1 \/
          c = b_remove_notification (name (topic t.2)) \/
          c = ps_remove_topic (name (topic t.2)))) /\
  (forall notif_name,
     args_lookup "notification" s_args = Some notif_name ->
     notif_name <> EmptyString -> s_bucket_name <> EmptyString ->
     (forall t, t ∈ read_bucket_topics st h -> s3_id t.2 <> notif_name) ->
     delete_notif_execute st s_args s_bucket_name h
       = (returns st h b_get_topics, h ++ [b_get_topics])).
Proof.
  unfold delete_notif_execute, delete_notif_get_params, args_exists, args_get.
  split; [|split].
  - intros [Hnone| ->].
    + now rewrite Hnone.
    + destruct (args_lookup "notification" s_args); reflexivity.
  - destruct (args_lookup "notification" s_args) as [n|]; cbn [negb];
      [|exists []; cbn; split; [now rewrite app_nil_r|intros c Hc; inversion Hc]].
    destruct (empty s_bucket_name); cbn [Z.ltb Z.compare Z.opp EINVAL];
      [exists []; cbn; split; [now rewrite app_nil_r|intros c Hc; inversion Hc]|].
    unfold do_call.
    assert (Hget : forall c, c ∈ [b_get_topics] ->
              c = b_get_topics \/
              exists t, t ∈ read_bucket_topics st h /\
                (c = b_remove_notification t.1 \/ c = ps_remove_topic t.1 \/
                 c = b_remove_notification (name (topic t.2)) \/
                 c = ps_remove_topic (name (topic t.2)))).
    { intros c Hc. apply elem_of_cons in Hc as [->|Hc]; [now left|inversion Hc]. }
    destruct (returns st h b_get_topics <? 0);
      [exists [b_get_topics]; split; [reflexivity|exact Hget]|].
    destruct (empty n); cbn [negb].
    + destruct (delete_all_notifications_within st (read_bucket_topics st h)
                  (h ++ [b_get_topics])) as (new & Hnew & Hin).
      exists (b_get_topics :: new). split.
      * rewrite Hnew. now rewrite <- app_assoc.
      * intros c Hc. apply elem_of_cons in Hc as [->|Hc]; [now left|].
        right. destruct (Hin c Hc) as (t & Ht & [Hc'|Hc']);
          exists t; (split; [exact Ht|]); auto.
    + destruct (find_unique_topic (read_bucket_topics st h) n) as [f|] eqn:Hf;
        [|exists [b_get_topics]; split; [reflexivity|exact Hget]].
      apply find_unique_topic_elem in Hf as (_ & t & Ht & <-).
      rewrite remove_notification_by_topic_calls.
      exists [b_get_topics; b_remove_notification (name (topic t.2));
              ps_remove_topic (name (topic t.2))].
      split; [cbn [snd]; now rewrite <- app_assoc|].
      intros c Hc. apply elem_of_cons in Hc as [->|Hc]; [now left|].
      right. exists t. split; [exact Ht|].
      apply elem_of_cons in Hc as [->|Hc]; [auto|].
      apply elem_of_cons in Hc as [->|Hc]; [auto|inversion Hc].
  - intros n Hn Hne Hb Hnone. rewrite Hn. cbn [negb].
    apply empty_false in Hne, Hb. rewrite Hb.
    cbn [Z.ltb Z.compare Z.opp EINVAL]. unfold do_call.
    destruct (returns st h b_get_topics <? 0); [reflexivity|].
    rewrite Hne. cbn [negb].
    now rewrite (proj2 (find_unique_topic_none _ _) Hnone).
Qed.

End Store.

Section Listing.

Import rgw.

Lemma list_s3_notifications_filter (bucket_topics : rgw_pubsub_bucket_topics)
    (notifications : list rgw_pubsub_topic_filter) :
  list_s3_notifications bucket_topics notifications =
    notifications
    ++ filter (fun f => empty (s3_id f) = false) (bucket_topics.*2).
Proof.
  revert notifications.
  induction bucket_topics as [|t rest IH]; intros notifications;
    cbn [list_s3_notifications].
  - now rewrite app_nil_r.
  - rewrite fmap_cons. destruct (empty (s3_id t.2)) eqn:E.
    + rewrite IH. rewrite filter_cons_False; [reflexivity|congruence].
    + rewrite IH, <- app_assoc. now rewrite filter_cons_True.
Qed.

(** X17: [RGWPSListNotifsOp::execute] reads the topics of the bucket once
    and only adds to the list it has.  Without a name it adds the topics
    with a non-empty [s3_id], all of them, in the order of the keys; with a
    name it adds the first topic with that [s3_id], or adds nothing and
    fails with [-ENOENT] when no topic has it. *)
Theorem list_notifs_execute_result (st : store) (notif_name : string)
    (notifications : list rgw_pubsub_topic_filter) (h : list call) :
  (list_notifs_execute st notif_name notifications h).2
    = h ++ [b_get_topics] /\
  (exists added,
     (list_notifs_execute st notif_name notifications h).1.2
       = notifications ++ added /\
     forall f, f ∈ added ->
       s3_id f <> EmptyString /\ f ∈ (read_bucket_topics st h).*2) /\
  (0 <= returns st h b_get_topics -> notif_name = EmptyString ->
   (list_notifs_execute st notif_name notifications h).1 =
     (returns st h b_get_topics,
      notifications
      ++ filter (fun f => empty (s3_id f) = false)
           ((read_bucket_topics st h).*2))) /\
  (0 <= returns st h b_get_topics -> notif_name <> EmptyString ->
   match find_unique_topic (read_bucket_topics st h) notif_name with
   | Some f =>
       (list_notifs_execute st notif_name notifications h).1
         = (returns st h b_get_topics, notifications ++ [f])
   | None =>
       (list_notifs_execute st notif_name notifications h).1
         = (- ENOENT, notifications)
   end).
Proof.
  unfold list_notifs_execute, do_call.
  destruct (Z.ltb_spec (returns st h b_get_topics) 0) as [Hneg|Hok].
  - cbn. split; [reflexivity|]. split; [|split; intros; lia].
    exists []. split; [now rewrite app_nil_r|]. intros f Hf. inversion Hf.
  - destruct (empty notif_name) eqn:Hname; cbn [negb].
    + cbn [fst snd]. split; [reflexivity|]. split; [|split].
      * exists (filter (fun f => empty (s3_id f) = false)
                  ((read_bucket_topics st h).*2)).
        split; [apply list_s3_notifications_filter|].
        intros f Hf. apply list_elem_of_filter in Hf as [Hid Hin].
        split; [now apply empty_false|exact Hin].
      * intros _ _. now rewrite list_s3_notifications_filter.
      * intros _ Hne. apply empty_false in Hne. congruence.
    + destruct (find_unique_topic (read_bucket_topics st h) notif_name)
        as [f|] eqn:Hf; cbn [fst snd].
      * split; [reflexivity|]. split; [|split].
        -- exists [f]. split; [reflexivity|]. intros x Hx.
           apply elem_of_cons in Hx as [->|Hx]; [|inversion Hx].
           apply find_unique_topic_elem in Hf as (Hid & t & Ht & <-).
           split.
           ++ rewrite Hid. now apply empty_false.
           ++ apply list_elem_of_fmap. now exists t.
        -- intros _ ->. discriminate Hname.
        -- reflexivity.
      * split; [reflexivity|]. split; [|split].
        -- exists []. split; [now rewrite app_nil_r|].
           intros x Hx. inversion Hx.
        -- intros _ ->. discriminate Hname.
        -- reflexivity.
Qed.

(** X18: [RGWPSListTopicsOp::execute] reads the topics once, never returns
    [-ENOENT], and returns a result that is not negative only if no topic
    it read stores a secret or the transport is secure or cleartext secrets
    are allowed. *)
Theorem list_topics_execute_secrets (st : store) (env : RGWEnv)
    (h : list call) :
  (list_topics_execute st env h).2 = h ++ [ps_get_topics] /\
  (list_topics_execute st env h).1.2 = read_topics st h /\
  (list_topics_execute st env h).1.1 <> - ENOENT /\
  (0 <= (list_topics_execute st env h).1.1 ->
   forall t, t ∈ read_topics st h -> stored_secret (dest t.2) = true ->
     rgw_transport_is_secure env = true \/
     rgw_allow_notification_secrets_in_cleartext env = true).
Proof.
  unfold list_topics_execute, do_call.
  set (ret := if returns st h ps_get_topics =? - ENOENT then 0
              else returns st h ps_get_topics).
  assert (Hret : ret <> - ENOENT).
  { unfold ret. destruct (Z.eqb_spec (returns st h ps_get_topics) (- ENOENT));
      [discriminate|assumption]. }
  destruct (Z.ltb_spec ret 0) as [Hneg|Hok]; cbn [fst snd].
  - repeat split; [exact Hret|]. intros H. lia.
  - destruct (topics_has_endpoint_secret (read_topics st h)) eqn:Hsec;
      cbn [andb].
    + destruct (verify_transport_security env) eqn:Hv; cbn [negb fst snd].
      * repeat split; [exact Hret|]. intros _ t _ _.
        rewrite verify_transport_security_spec in Hv.
        now apply orb_true_iff in Hv.
      * split; [reflexivity|]. split; [reflexivity|].
        split; [discriminate|]. intros H. cbn in H. unfold EPERM in H. lia.
    + repeat split; [exact Hret|]. intros _ t Ht Hst.
      assert (Hex : topics_has_endpoint_secret (read_topics st h) = true)
        by (apply topics_has_endpoint_secret_spec; now exists t).
      congruence.
Qed.

End Listing.

Section CreateTopicParams.

Import rgw.

Lemma empty_append (a b : string) : empty (a +:+ b) = empty a && empty b.
Proof. destruct a; [now destruct b|reflexivity]. Qed.

Lemma append_params_app (params : RGWHTTPArgs) (acc : string) :
  append_params params acc =
    acc +:+ foldr (fun seg rest => (seg +:+ "&") +:+ rest) ""
              ((fun p => (p.1 +:+ "=") +:+ p.2) <$>
               filter (fun p => (String.eqb p.1 "Action"
                                 || String.eqb p.1 "Name"
                                 || String.eqb p.1 "PayloadHash") = false)
                 params).
Proof.
  revert acc. induction params as [|p rest IH]; intros acc;
    cbn [append_params].
  - cbn. now rewrite append_nil_r.
  - destruct (String.eqb p.1 "Action" || String.eqb p.1 "Name"
              || String.eqb p.1 "PayloadHash") eqn:E.
    + rewrite IH, filter_cons_False; [reflexivity|congruence].
    + rewrite IH, filter_cons_True by exact E.
      rewrite fmap_cons. cbn [foldr]. now rewrite !append_assoc.
Qed.

Lemma joined_concat (seg : string) (segs : list string) :
  foldr (fun seg rest => (seg +:+ "&") +:+ rest) "" (seg :: segs)
  = String.concat "&" (seg :: segs) +:+ "&".
Proof.
  revert seg. induction segs as [|s segs IH]; intros seg.
  - cbn. now rewrite append_nil_r.
  - cbn [foldr] in *. rewrite IH. cbn [String.concat].
    now rewrite !append_assoc.
Qed.

(** The loop over the arguments and the removal of the last separator
    join the arguments that are passed on with "&". *)
Lemma append_params_join (params : RGWHTTPArgs) :
  (if negb (empty (append_params params ""))
   then pop_back (append_params params "")
   else append_params params "")
  = String.concat "&"
      ((fun p => (p.1 +:+ "=") +:+ p.2) <$>
       filter (fun p => (String.eqb p.1 "Action" || String.eqb p.1 "Name"
                         || String.eqb p.1 "PayloadHash") = false) params).
Proof.
  rewrite append_params_app, append_nil_l.
  destruct ((fun p => (p.1 +:+ "=") +:+ p.2) <$>
            filter (fun p => (String.eqb p.1 "Action" || String.eqb p.1 "Name"
                              || String.eqb p.1 "PayloadHash") = false) params)
    as [|seg segs]; [reflexivity|].
  rewrite joined_concat.
  rewrite empty_append, andb_false_r. cbn [negb].
  apply pop_back_append.
Qed.

Lemma collect_push_endpoint_args_join (s_args : RGWHTTPArgs)
    (d : rgw_pubsub_dest) :
  push_endpoint_args d = EmptyString ->
  collect_push_endpoint_args s_args d =
    set_push_endpoint_args
      (String.concat "&"
         ((fun p => (p.1 +:+ "=") +:+ p.2) <$>
          filter (fun p => (String.eqb p.1 "Action" || String.eqb p.1 "Name"
                            || String.eqb p.1 "PayloadHash") = false) s_args))
      d.
Proof.
  intros Hd. unfold collect_push_endpoint_args. rewrite Hd.
  cbn [push_endpoint_args set_push_endpoint_args].
  rewrite <- append_params_join.
  destruct (negb (empty (append_params s_args ""))); reflexivity.
Qed.

Lemma validate_result_dest
    (parse_url_userinfo : string -> option (string * string))
    (d d' : rgw_pubsub_dest) (env : RGWEnv) (b : bool) :
  validate_and_update_endpoint_secret parse_url_userinfo d env = Some (b, d') ->
  d' = d \/ d' = set_stored_secret true d.
Proof.
  unfold validate_and_update_endpoint_secret. intros H.
  destruct (empty (push_endpoint d)); [injection H as _ <-; now left|].
  destruct (parse_url_userinfo (push_endpoint d)) as [[u p]|];
    [|injection H as _ <-; now left].
  destruct (negb (Bool.eqb (empty u) (empty p))); [discriminate H|].
  destruct (negb (empty u)); [|injection H as _ <-; now left].
  destruct (negb (verify_transport_security env));
    injection H as _ <-; now right.
Qed.

(** X19: when [RGWPSCreateTopicOp::get_params] succeeds on an operation
    whose destination has no arguments yet, the topic has the non-empty
    name of the request, the destination's [arn_topic] is that name, its
    endpoint is the request's [push-endpoint], and its arguments are all
    the arguments of the request other than [Action], [Name] and
    [PayloadHash], as [name=value] joined with "&"; the queue of a
    persistent topic has been asked for exactly when the endpoint is not
    empty and the topic is persistent. *)
Theorem create_topic_get_params_success
    (parse_url_userinfo : string -> option (string * string))
    (args_get_bool : RGWHTTPArgs -> string -> bool -> bool)
    (arn_to_string : string -> string -> string -> string)
    (st : store) (s_args : RGWHTTPArgs) (env : RGWEnv)
    (zonegroup s_tenant : string) (op op' : create_topic_op)
    (h h' : list call) :
  push_endpoint_args (ct_dest op) = EmptyString ->
  create_topic_get_params parse_url_userinfo args_get_bool arn_to_string
    st s_args env zonegroup s_tenant op h = Some (0, op', h') ->
  ct_topic_name op' = args_get "Name" s_args /\
  ct_topic_name op' <> EmptyString /\
  ct_opaque_data op' = args_get "OpaqueData" s_args /\
  ct_topic_arn op' = arn_to_string zonegroup s_tenant (ct_topic_name op') /\
  arn_topic (ct_dest op') = ct_topic_name op' /\
  push_endpoint (ct_dest op') = args_get "push-endpoint" s_args /\
  push_endpoint_args (ct_dest op') =
    String.concat "&"
      ((fun p => (p.1 +:+ "=") +:+ p.2) <$>
       filter (fun p => (String.eqb p.1 "Action" || String.eqb p.1 "Name"
                         || String.eqb p.1 "PayloadHash") = false) s_args) /\
  (if negb (empty (push_endpoint (ct_dest op'))) && persistent (ct_dest op')
   then h' = h ++ [add_persistent_topic (ct_topic_name op')] /\
        0 <= returns st h (add_persistent_topic (ct_topic_name op'))
   else h' = h).
Proof.
  intros Hargs H. unfold create_topic_get_params in H.
  destruct (empty (args_get "Name" s_args)) eqn:Hname;
    [injection H as H _ _; discriminate H|].
  apply empty_false in Hname.
  set (d2 := set_persistent (args_get_bool s_args "persistent" false)
               (set_push_endpoint (args_get "push-endpoint" s_args)
                  (ct_dest op))) in *.
  destruct (validate_and_update_endpoint_secret parse_url_userinfo d2 env)
    as [[[] d3]|] eqn:Hval;
    [|injection H as H _ _; discriminate H|discriminate H].
  apply validate_result_dest in Hval.
  assert (Hd3args : push_endpoint_args d3 = EmptyString)
    by (destruct Hval as [-> | ->]; exact Hargs).
  assert (Hd3end : push_endpoint d3 = args_get "push-endpoint" s_args)
    by (destruct Hval as [-> | ->]; reflexivity).
  rewrite (collect_push_endpoint_args_join s_args d3 Hd3args) in H.
  set (joined := String.concat "&" _) in *.
  cbn [push_endpoint persistent set_push_endpoint_args] in H.
  unfold do_call in H.
  destruct (negb (empty (push_endpoint d3)) && persistent d3) eqn:Hpers.
  - destruct (Z.ltb_spec
                (returns st h (add_persistent_topic (args_get "Name" s_args)))
                0) as [Hneg|Hok].
    + injection H as H _ _. lia.
    + injection H as <- <-. cbn. rewrite Hpers, Hd3end.
      repeat split; assumption.
  - injection H as <- <-. cbn. rewrite Hpers, Hd3end.
    repeat split; assumption.
Qed.

(** A request for a topic with an endpoint and one argument of the
    endpoint. *)
Lemma create_topic_get_params_success_witness :
  push_endpoint_args
    (ct_dest (BuildCreateTopic "" rgw_pubsub_dest_default "" ""))
    = EmptyString /\
  create_topic_get_params (fun _ => Some (""%string, ""%string))
    (fun _ _ def_val => def_val)
    (fun zonegroup tenant topic =>
       ((("arn:aws:sns:" +:+ zonegroup) +:+ ":") +:+ tenant) +:+ ":" +:+ topic)
    (BuildStore (fun _ _ => 0) (fun _ => []) 
       (fun _ _ => BuildTopic (BuildUser "" "") "" rgw_pubsub_dest_default
                     "" "")
       (fun _ => []))
    [("Action", "CreateTopic"); ("Name", "t1"); ("OpaqueData", "o");
     ("amqp-exchange", "ex"); ("push-endpoint", "amqp://h")]%string
    (BuildEnv false false) "default" ""
    (BuildCreateTopic "" rgw_pubsub_dest_default "" "") []
  = Some (0,
          BuildCreateTopic "t1"
            (BuildDest "amqp://h"
               "OpaqueData=o&amqp-exchange=ex&push-endpoint=amqp://h" "t1"
               false false)
            "arn:aws:sns:default::t1" "o", []) /\
  push_endpoint_args
    (ct_dest
       (BuildCreateTopic "t1"
          (BuildDest "amqp://h"
             "OpaqueData=o&amqp-exchange=ex&push-endpoint=amqp://h" "t1"
             false false)
          "arn:aws:sns:default::t1" "o"))
  = String.concat "&"
      ((fun p => (p.1 +:+ "=") +:+ p.2) <$>
       filter (fun p => (String.eqb p.1 "Action" || String.eqb p.1 "Name"
                         || String.eqb p.1 "PayloadHash") = false)
         [("Action", "CreateTopic"); ("Name", "t1"); ("OpaqueData", "o");
          ("amqp-exchange", "ex"); ("push-endpoint", "amqp://h")]%string).
Proof.
  split; [reflexivity|]. split; [reflexivity|].
  apply (create_topic_get_params_success (fun _ => Some (""%string, ""%string))
    (fun _ _ def_val => def_val)
    (fun zonegroup tenant topic =>
       ((("arn:aws:sns:" +:+ zonegroup) +:+ ":") +:+ tenant) +:+ ":" +:+ topic)
    (BuildStore (fun _ _ => 0) (fun _ => []) 
       (fun _ _ => BuildTopic (BuildUser "" "") "" rgw_pubsub_dest_default
                     "" "")
       (fun _ => []))
    [("Action", "CreateTopic"); ("Name", "t1"); ("OpaqueData", "o");
     ("amqp-exchange", "ex"); ("push-endpoint", "amqp://h")]%string
    (BuildEnv false false) "default" ""
    (BuildCreateTopic "" rgw_pubsub_dest_default "" "") _ [] []);
    reflexivity.
Defined.

End CreateTopicParams.

Section GetTopic.

Import rgw.

(** X20: [RGWPSGetTopicOp::execute] and
    [RGWPSGetTopicAttributesOp::execute] fail with [-EINVAL], without a
    call to the store, when the [TopicArn] does not parse or names no
    resource; otherwise they read that one topic, and return a result that
    is not negative only if the topic stores no secret or the transport is
    secure or cleartext secrets are allowed. *)
Theorem get_topic_execute_secrets (arn_parse : string -> option string)
    (st : store) (env : RGWEnv) (s_args : RGWHTTPArgs) (h : list call) :
  (arn_parse (args_get "TopicArn" s_args) = None \/
   arn_parse (args_get "TopicArn" s_args) = Some EmptyString ->
   (get_topic_execute arn_parse st env s_args h).1.1 = - EINVAL /\
   (get_topic_execute arn_parse st env s_args h).2 = h) /\
  (forall resource,
     arn_parse (args_get "TopicArn" s_args) = Some resource ->
     resource <> EmptyString ->
     (get_topic_execute arn_parse st env s_args h).2
       = h ++ [ps_get_topic resource] /\
     (get_topic_execute arn_parse st env s_args h).1.2
       = read_topic st h resource /\
     (0 <= (get_topic_execute arn_parse st env s_args h).1.1 ->
      stored_secret (dest (read_topic st h resource)) = true ->
      rgw_transport_is_secure env = true \/
      rgw_allow_notification_secrets_in_cleartext env = true)).
Proof.
  unfold get_topic_execute, get_topic_get_params. split.
  - intros [-> | ->]; split; reflexivity.
  - intros resource -> Hne. apply empty_false in Hne. rewrite Hne.
    cbn [Z.ltb Z.compare fst snd]. unfold do_call.
    destruct (Z.ltb_spec (returns st h (ps_get_topic resource)) 0)
      as [Hneg|Hok]; cbn [fst snd].
    + repeat split. intros H. lia.
    + unfold topic_has_endpoint_secret.
      destruct (stored_secret (dest (read_topic st h resource))) eqn:Hsec;
        cbn [andb].
      * destruct (verify_transport_security env) eqn:Hv; cbn [negb fst snd].
        -- repeat split. intros _ _.
           rewrite verify_transport_security_spec in Hv.
           now apply orb_true_iff in Hv.
        -- repeat split. intros H. unfold EPERM in H. lia.
      * repeat split. intros _ H. discriminate H.
Qed.

End GetTopic.

Section TopicOps.

Import rgw.

(** X21: [RGWPSDeleteTopicOp::execute] removes the queue of the topic
    before the topic.  That there was no queue ([-ENOENT]) does not stop
    it: the topic is removed and the result is that of the removal.  Any
    other failure to remove the queue is the result, and the topic is not
    removed.  A [TopicArn] that does not parse or names no resource gives
    [-EINVAL] and no call is made. *)
Theorem delete_topic_execute_calls (arn_parse : string -> option string)
    (st : store) (s_args : RGWHTTPArgs) (h : list call) :
  (arn_parse (args_get "TopicArn" s_args) = None \/
   arn_parse (args_get "TopicArn" s_args) = Some EmptyString ->
   delete_topic_execute arn_parse st s_args h = (- EINVAL, h)) /\
  (forall resource,
     arn_parse (args_get "TopicArn" s_args) = Some resource ->
     resource <> EmptyString ->
     (returns st h (remove_persistent_topic resource) = - ENOENT \/
      0 <= returns st h (remove_persistent_topic resource) ->
      delete_topic_execute arn_parse st s_args h
      = (returns st (h ++ [remove_persistent_topic resource])
           (ps_remove_topic resource),
         h ++ [remove_persistent_topic resource; ps_remove_topic resource])) /\
     (returns st h (remove_persistent_topic resource) < 0 ->
      returns st h (remove_persistent_topic resource) <> - ENOENT ->
      delete_topic_execute arn_parse st s_args h
      = (returns st h (remove_persistent_topic resource),
         h ++ [remove_persistent_topic resource]))).
Proof.
  unfold delete_topic_execute, delete_topic_get_params, ext_bind, ext_ret,
    do_call.
  split.
  - intros [-> | ->]; reflexivity.
  - intros resource -> Hne. apply empty_false in Hne. rewrite Hne.
    set (r := returns st h (remove_persistent_topic resource)).
    split.
    + intros Hr. destruct (Z.eqb_spec r (- ENOENT)) as [_|Hno].
      * cbn [fst snd Z.ltb Z.compare]. now rewrite <- app_assoc.
      * destruct Hr as [Hr|Hr]; [contradiction|].
        destruct (Z.ltb_spec r 0); [lia|].
        cbn [fst snd Z.ltb Z.compare]. now rewrite <- app_assoc.
    + intros Hneg Hno. destruct (Z.eqb_spec r (- ENOENT)); [contradiction|].
      destruct (Z.ltb_spec r 0) as [_|]; [|lia]. cbn [fst snd].
      destruct (Z.ltb_spec r 0); [reflexivity|lia].
Qed.

Lemma validate_secret_transport
    (parse_url_userinfo : string -> option (string * string))
    (d d' : rgw_pubsub_dest) (env : RGWEnv) :
  validate_and_update_endpoint_secret parse_url_userinfo d env
    = Some (true, d') ->
  stored_secret d = false -> stored_secret d' = true ->
  verify_transport_security env = true.
Proof.
  unfold validate_and_update_endpoint_secret. intros H Hd Hd'.
  destruct (empty (push_endpoint d)); [injection H as <-; congruence|].
  destruct (parse_url_userinfo (push_endpoint d)) as [[u p]|];
    [|discriminate H].
  destruct (negb (Bool.eqb (empty u) (empty p))); [discriminate H|].
  destruct (negb (empty u)); [|injection H as <-; congruence].
  destruct (verify_transport_security env); [reflexivity|discriminate H].
Qed.

Lemma collect_push_endpoint_args_keeps (s_args : RGWHTTPArgs)
    (d : rgw_pubsub_dest) :
  stored_secret (collect_push_endpoint_args s_args d) = stored_secret d /\
  push_endpoint (collect_push_endpoint_args s_args d) = push_endpoint d /\
  persistent (collect_push_endpoint_args s_args d) = persistent d.
Proof.
  unfold collect_push_endpoint_args.
  cbn [push_endpoint_args set_push_endpoint_args].
  destruct (negb (empty (append_params s_args (push_endpoint_args d))));
    repeat split.
Qed.

(** X22: [RGWPSCreateTopicOp::execute] asks the store for a topic at most
    once and as its last call, under the name of the request, which is not
    empty, and with the destination it found; over a transport that is not
    secure, and with cleartext secrets not allowed, the destination of a
    topic it creates stores no secret. *)
Theorem create_topic_execute_creates
    (parse_url_userinfo : string -> option (string * string))
    (args_get_bool : RGWHTTPArgs -> string -> bool -> bool)
    (arn_to_string : string -> string -> string -> string)
    (st : store) (s_args : RGWHTTPArgs) (env : RGWEnv)
    (zonegroup s_tenant : string) (op op' : create_topic_op)
    (ret : Z) (h h' : list call) (n : string) (d : rgw_pubsub_dest)
    (a o : string) :
  stored_secret (ct_dest op) = false ->
  create_topic_execute parse_url_userinfo args_get_bool arn_to_string
    st s_args env zonegroup s_tenant op h = Some (ret, op', h') ->
  ps_create_topic n d a o ∈ drop (length h) h' ->
  (exists pre, h' = h ++ pre ++ [ps_create_topic n d a o] /\
               forall n' d' a' o', ps_create_topic n' d' a' o' ∉ pre) /\
  n = args_get "Name" s_args /\ n <> EmptyString /\
  d = ct_dest op' /\
  (stored_secret d = true ->
   rgw_transport_is_secure env = true \/
   rgw_allow_notification_secrets_in_cleartext env = true).
Proof.
  intros Hfresh H Hin. unfold create_topic_execute in H.
  unfold create_topic_get_params in H.
  destruct (empty (args_get "Name" s_args)) eqn:Hname.
  { cbn in H. injection H as _ _ <-. rewrite drop_all in Hin.
    apply not_elem_of_nil in Hin. destruct Hin. }
  apply empty_false in Hname.
  set (d2 := set_persistent (args_get_bool s_args "persistent" false)
               (set_push_endpoint (args_get "push-endpoint" s_args)
                  (ct_dest op))) in *.
  destruct (validate_and_update_endpoint_secret parse_url_userinfo d2 env)
    as [[[] d3]|] eqn:Hval; [| |discriminate H].
  2:{ cbn in H. injection H as _ _ <-. rewrite drop_all in Hin.
      apply not_elem_of_nil in Hin. destruct Hin. }
  assert (Hsec : stored_secret d3 = true ->
                 verify_transport_security env = true)
    by exact (validate_secret_transport _ d2 d3 env Hval Hfresh).
  destruct (collect_push_endpoint_args_keeps s_args d3) as (Hk1 & Hk2 & Hk3).
  set (d5 := collect_push_endpoint_args s_args d3) in *.
  unfold do_call in H.
  assert (Hdone : forall pre,
    (forall n' d' a' o', ps_create_topic n' d' a' o' ∉ pre) ->
    forall opf, opf = BuildCreateTopic (args_get "Name" s_args)
                  (set_arn_topic (args_get "Name" s_args) d5)
                  (arn_to_string zonegroup s_tenant (args_get "Name" s_args))
                  (args_get "OpaqueData" s_args) ->
    op' = opf ->
    h' = (h ++ pre) ++ [ps_create_topic (ct_topic_name opf) (ct_dest opf)
                          (ct_topic_arn opf) (ct_opaque_data opf)] ->
    (exists pre0, h' = h ++ pre0 ++ [ps_create_topic n d a o] /\
               forall n' d' a' o', ps_create_topic n' d' a' o' ∉ pre0) /\
    n = args_get "Name" s_args /\ n <> EmptyString /\
    d = ct_dest op' /\
    (stored_secret d = true ->
     rgw_transport_is_secure env = true \/
     rgw_allow_notification_secrets_in_cleartext env = true)).
  { intros pre Hpre opf Hopf -> ->. subst opf. cbn in *.
    rewrite <- app_assoc, drop_app_length in Hin.
    apply elem_of_app in Hin as [Hin|Hin]; [now apply Hpre in Hin|].
    apply list_elem_of_singleton in Hin. injection Hin as -> -> -> ->.
    split; [exists pre; split; [now rewrite app_assoc|exact Hpre]|].
    split; [reflexivity|]. split; [exact Hname|]. split; [reflexivity|].
    cbn. rewrite Hk1. intros Hs. apply Hsec in Hs.
    rewrite verify_transport_security_spec in Hs.
    now apply orb_true_iff in Hs. }
  destruct (negb (empty (push_endpoint d5)) && persistent d5).
  - destruct (Z.ltb_spec
                (returns st h (add_persistent_topic (args_get "Name" s_args)))
                0) as [Hneg|Hok].
    + destruct (Z.ltb_spec
                  (returns st h
                     (add_persistent_topic (args_get "Name" s_args))) 0);
        [|lia].
      injection H as _ _ <-. rewrite drop_app_length in Hin.
      apply list_elem_of_singleton in Hin. discriminate Hin.
    + cbn [Z.ltb Z.compare] in H. injection H as _ <- <-.
      eapply (Hdone [add_persistent_topic (args_get "Name" s_args)]);
        [|reflexivity|reflexivity|reflexivity].
      intros n' d' a' o' Hx. apply list_elem_of_singleton in Hx.
      discriminate Hx.
  - cbn [Z.ltb Z.compare] in H. injection H as _ <- <-.
    eapply (Hdone []); [|reflexivity|reflexivity|now rewrite app_nil_r].
    intros n' d' a' o' Hx. apply not_elem_of_nil in Hx. destruct Hx.
Qed.

(** A topic with a secret in its endpoint, created over a secure
    transport. *)
Lemma create_topic_execute_creates_witness :
  stored_secret (ct_dest (BuildCreateTopic "" rgw_pubsub_dest_default "" ""))
    = false /\
  create_topic_execute (fun _ => Some ("u"%string, "p"%string))
    (fun _ _ def_val => def_val)
    (fun zonegroup tenant topic =>
       ((("arn:aws:sns:" +:+ zonegroup) +:+ ":") +:+ tenant) +:+ ":" +:+ topic)
    (BuildStore (fun _ _ => 0) (fun _ => [])
       (fun _ _ => BuildTopic (BuildUser "" "") "" rgw_pubsub_dest_default
                     "" "")
       (fun _ => []))
    [("Action", "CreateTopic"); ("Name", "t1");
     ("push-endpoint", "amqp://u:p@h")]%string
    (BuildEnv true false) "default" ""
    (BuildCreateTopic "" rgw_pubsub_dest_default "" "") []
  = Some (0,
          BuildCreateTopic "t1"
            (BuildDest "amqp://u:p@h" "push-endpoint=amqp://u:p@h" "t1"
               true false)
            "arn:aws:sns:default::t1" "",
          [ps_create_topic "t1"
             (BuildDest "amqp://u:p@h" "push-endpoint=amqp://u:p@h" "t1"
                true false)
             "arn:aws:sns:default::t1" ""]) /\
  (rgw_transport_is_secure (BuildEnv true false) = true \/
   rgw_allow_notification_secrets_in_cleartext (BuildEnv true false) = true).
Proof.
  split; [reflexivity|]. split; [reflexivity|].
  refine (proj2 (proj2 (proj2 (proj2
    (create_topic_execute_creates (fun _ => Some ("u"%string, "p"%string))
       (fun _ _ def_val => def_val)
       (fun zonegroup tenant topic =>
          ((("arn:aws:sns:" +:+ zonegroup) +:+ ":") +:+ tenant)
          +:+ ":" +:+ topic)
       (BuildStore (fun _ _ => 0) (fun _ => [])
          (fun _ _ => BuildTopic (BuildUser "" "") ""
                        rgw_pubsub_dest_default "" "")
          (fun _ => []))
       [("Action", "CreateTopic"); ("Name", "t1");
        ("push-endpoint", "amqp://u:p@h")]%string
       (BuildEnv true false) "default" ""
       (BuildCreateTopic "" rgw_pubsub_dest_default "" "") _ 0 [] _
       "t1"
       (BuildDest "amqp://u:p@h" "push-endpoint=amqp://u:p@h" "t1"
          true false)
       "arn:aws:sns:default::t1" "" eq_refl eq_refl _)))) eq_refl).
  cbn [length drop]. left.
Defined.

End TopicOps.

Section Encoding.

Import rgw.

Lemma token_encoding_laws : encoding_laws token_encoding.
Proof.
  split; [reflexivity|]. split; [reflexivity|]. split; [reflexivity|].
  intros v compat body rest maxv H. cbn.
  destruct (Z.leb_spec compat maxv); [reflexivity|lia].
Qed.

Context {B : Type} (E : encoding B).

Ltac decode_reduce :=
  cbn [mbind option_bind Z.leb Z.compare Pos.compare Pos.compare_cont].

Lemma dest_decode_encode (d d0 : rgw_pubsub_dest) (rest : list B) :
  encoding_laws E ->
  dest_decode E d0 (dest_encode E d [] ++ rest) = Some (d, rest).
Proof.
  intros (Hs & Hb & _ & Hst). unfold dest_decode, dest_encode.
  rewrite app_nil_l, Hst by lia. decode_reduce.
  rewrite <- (app_nil_r (encode_bool E (persistent d))).
  repeat (first [rewrite Hs | rewrite Hb]; decode_reduce).
  decode_reduce. destruct d; reflexivity.
Qed.

(** X23: what [rgw_pubsub_dest::encode] appends to a buffer,
    [rgw_pubsub_dest::decode] reads back from the place where it was
    appended: the object that is decoded into becomes the object that was
    encoded, whatever it held, and the decoder stops where the bytes that
    follow the struct start. *)
Theorem dest_round_trip (d d0 : rgw_pubsub_dest) (bl rest : list B) :
  encoding_laws E ->
  dest_decode E d0 (drop (length bl) (dest_encode E d bl ++ rest))
  = Some (d, rest).
Proof.
  intros HE. unfold dest_encode at 1.
  rewrite <- app_assoc, drop_app_length.
  exact (dest_decode_encode d d0 rest HE).
Qed.

(** X24: what [rgw_pubsub_topic::encode] appends to a buffer,
    [rgw_pubsub_topic::decode] reads back from the place where it was
    appended, the destination inside the topic included. *)
Theorem topic_round_trip (t t0 : rgw_pubsub_topic) (bl rest : list B) :
  encoding_laws E ->
  topic_decode E t0 (drop (length bl) (topic_encode E t bl ++ rest))
  = Some (t, rest).
Proof.
  intros HE. pose proof HE as (Hs & _ & Hu & Hst).
  unfold topic_encode. rewrite <- app_assoc, drop_app_length.
  unfold topic_decode. rewrite Hst by lia. decode_reduce.
  unfold dest_encode at 1. rewrite <- !app_assoc.
  rewrite Hu. decode_reduce. rewrite Hs. decode_reduce.
  change (encode_start E 5 1 ?x) with (dest_encode E (dest t) []) at 1.
  rewrite (dest_decode_encode (dest t) (dest t0) _ HE). decode_reduce.
  rewrite Hs. decode_reduce.
  rewrite <- (app_nil_r (encode_string E (opaque_data t))), Hs.
  decode_reduce. destruct t; reflexivity.
Qed.

(** X25: [rgw_pubsub_dest::decode] reads what older and newer writers
    wrote.  From a struct of a version below 2 it takes the endpoint and
    leaves the arguments, the topic ARN and the two flags of the object as
    they were; from a struct of a version above 5 that starts with the
    fields of version 5 it takes those and skips what follows them. *)
Theorem dest_decode_versions (d d0 : rgw_pubsub_dest) (v compat : Z)
    (s1 s2 : string) (more rest : list B) :
  encoding_laws E ->
  compat <= 5 ->
  (v < 2 ->
   dest_decode E d0
     (encode_start E v compat
        (encode_string E s1 ++ encode_string E s2 ++
         encode_string E (push_endpoint d) ++ more) ++ rest)
   = Some (set_push_endpoint (push_endpoint d) d0, rest)) /\
  (5 <= v ->
   dest_decode E d0
     (encode_start E v compat
        (encode_string E s1 ++ encode_string E s2 ++
         encode_string E (push_endpoint d) ++
         encode_string E (push_endpoint_args d) ++
         encode_string E (arn_topic d) ++
         encode_bool E (stored_secret d) ++
         encode_bool E (persistent d) ++ more) ++ rest)
   = Some (d, rest)).
Proof.
  intros (Hs & Hb & _ & Hst) Hc. split; intros Hv; unfold dest_decode;
    rewrite Hst by exact Hc; decode_reduce;
    do 3 (rewrite Hs; decode_reduce).
  - destruct (Z.leb_spec 2 v); [lia|]. destruct (Z.leb_spec 3 v); [lia|].
    destruct (Z.leb_spec 4 v); [lia|]. destruct (Z.leb_spec 5 v); [lia|].
    reflexivity.
  - destruct (Z.leb_spec 2 v); [|lia]. destruct (Z.leb_spec 3 v); [|lia].
    destruct (Z.leb_spec 4 v); [|lia]. destruct (Z.leb_spec 5 v); [|lia].
    repeat (first [rewrite Hs | rewrite Hb]; decode_reduce).
    destruct d; reflexivity.
Qed.

End Encoding.

(** A destination with a secret, appended to a buffer that holds a string,
    and followed by a flag. *)
Lemma dest_round_trip_witness :
  rgw.encoding_laws rgw.token_encoding /\
  rgw.dest_decode rgw.token_encoding rgw.rgw_pubsub_dest_default
    (drop (length [rgw.tok_string "head"])
       (rgw.dest_encode rgw.token_encoding
          (rgw.BuildDest "amqp://u:p@h" "amqp-exchange=ex" "t1" true false)
          [rgw.tok_string "head"] ++ [rgw.tok_bool true]))
  = Some (rgw.BuildDest "amqp://u:p@h" "amqp-exchange=ex" "t1" true false,
          [rgw.tok_bool true]).
Proof.
  split; [exact token_encoding_laws|].
  exact (dest_round_trip rgw.token_encoding
           (rgw.BuildDest "amqp://u:p@h" "amqp-exchange=ex" "t1" true false)
           rgw.rgw_pubsub_dest_default [rgw.tok_string "head"]
           [rgw.tok_bool true] token_encoding_laws).
Defined.

Lemma topic_round_trip_witness :
  rgw.encoding_laws rgw.token_encoding /\
  rgw.topic_decode rgw.token_encoding
    (rgw.BuildTopic (rgw.BuildUser "" "") "" rgw.rgw_pubsub_dest_default "" "")
    (drop (length (@nil rgw.token))
       (rgw.topic_encode rgw.token_encoding
          (rgw.BuildTopic (rgw.BuildUser "tn" "u1") "t1"
             (rgw.BuildDest "amqp://h" "" "t1" false true) "arn:t1" "o")
          [] ++ []))
  = Some (rgw.BuildTopic (rgw.BuildUser "tn" "u1") "t1"
            (rgw.BuildDest "amqp://h" "" "t1" false true) "arn:t1" "o", []).
Proof.
  split; [exact token_encoding_laws|].
  exact (topic_round_trip rgw.token_encoding
           (rgw.BuildTopic (rgw.BuildUser "tn" "u1") "t1"
              (rgw.BuildDest "amqp://h" "" "t1" false true) "arn:t1" "o")
           (rgw.BuildTopic (rgw.BuildUser "" "") ""
              rgw.rgw_pubsub_dest_default "" "")
           [] [] token_encoding_laws).
Defined.

(** A struct of version 1, which holds the endpoint only, read into an
    object that has a topic ARN. *)
Lemma dest_decode_versions_witness :
  rgw.encoding_laws rgw.token_encoding /\ 1 <= 5 /\
  rgw.dest_decode rgw.token_encoding
    (rgw.BuildDest "" "" "t0" false false)
    (rgw.encode_start rgw.token_encoding 1 1
       (rgw.encode_string rgw.token_encoding "" ++
        rgw.encode_string rgw.token_encoding "" ++
        rgw.encode_string rgw.token_encoding "amqp://h" ++ []) ++ [])
  = Some (rgw.BuildDest "amqp://h" "" "t0" false false, []).
Proof.
  split; [exact token_encoding_laws|]. split; [lia|].
  apply (dest_decode_versions rgw.token_encoding
           (rgw.BuildDest "amqp://h" "" "" false false)
           (rgw.BuildDest "" "" "t0" false false) 1 1 "" "" [] []
           token_encoding_laws); lia.
Defined.
